(** * MCUboot TLV iterator (boot/bootutil/src/tlv.c)

    A shallow embedding of the three functions of tlv.c,
    [bootutil_tlv_iter_begin], [bootutil_tlv_iter_next] and
    [bootutil_tlv_iter_is_prot], and the properties of the trailer scanner
    proved about them.

    Unsigned C integers are values of [Z] with the wrap-around of every
    [uint32_t] addition written out ([add32]).  Pointers that the code tests
    against [NULL] are [option]s.  The storage accessor behind
    [LOAD_IMAGE_DATA] is a function carried by the flash area, so every
    theorem holds for any behaviour of the reader (contents, bounds, faults).
    Every operation returns, next to its result, the iterator as it is left
    and the list of offsets handed to [LOAD_IMAGE_DATA], in order.  The
    [while] loop of [bootutil_tlv_iter_next] runs on fuel: [None] stands for
    a run that has not returned within the given number of iterations. *)

From Stdlib Require Import ZArith List Bool Lia Sorted.
From Stdlib Require Import Init.Byte.
From Stdlib Require Strings.Byte.
Import ListNotations.
Local Open Scope Z_scope.

(** ** Machine integers *)

Definition wrap32 (z : Z) : Z := z mod 2 ^ 32.

(** [uint32_t] addition. *)
Definition add32 (a b : Z) : Z := wrap32 (a + b).

Definition UINT16_MAX : Z := 65535.

(** ** Data model *)

(** Modelled from the spec: the storage accessor, "read_bytes(region,
    offset, length) -> bytes | ReadFailure".  [struct flash_area] and
    [flash_area_read] are not among the sources, so the reader is a function
    that the flash area carries: [flash_area_read fap off len] is the [len]
    bytes at [off], or [None] where the C function returns non-zero. *)
Record flash_area := {
  flash_area_read : Z -> nat -> option (list byte)
}.

(** Modelled from the spec: the image header "exposing trailer start offset
    and declared protected-area byte size".  Of [struct image_header]
    (bootutil/image.h) the fields that tlv.c and [BOOT_TLV_OFF] read. *)
Record image_header := {
  ih_hdr_size : Z;          (* uint16_t *)
  ih_protect_tlv_size : Z;  (* uint16_t *)
  ih_img_size : Z           (* uint32_t *)
}.

(** Modelled from the spec: "Trailer Info Record: magic: u16,
    total_length: u16".  [struct image_tlv_info], with the field names that
    tlv.c uses. *)
Record image_tlv_info := {
  it_magic : Z;    (* uint16_t *)
  it_tlv_tot : Z   (* uint16_t *)
}.

(** Modelled from the spec: "TLV Record Header: type: u16, length: u16".
    [struct image_tlv], with the field names that tlv.c uses. *)
Record image_tlv := {
  it_type : Z;   (* uint16_t *)
  it_len : Z     (* uint16_t *)
}.

(** [struct image_tlv_iter], with the fields that tlv.c reads and writes
    (lines 56 and 82-89).  [hdr] and [fap] are borrowed pointers, [None] for
    NULL.  [start_off] is only read when MCUBOOT_SWAP_USING_OFFSET is
    defined. *)
Record image_tlv_iter := {
  hdr : option image_header;
  fap : option flash_area;
  type : Z;        (* uint16_t *)
  prot : bool;
  prot_end : Z;    (* uint32_t *)
  tlv_off : Z;     (* uint32_t *)
  start_off : Z;   (* uint32_t *)
  tlv_end : Z      (* uint32_t *)
}.

(** Modelled from the spec: the format constants of bootutil/image.h, which
    is not among the sources ("two recognized magic values, protected-info
    and plain-info", and the wildcard filter "any").  The values are those of
    the MCUboot image format; the theorems use only that the two magic
    values differ. *)
Definition IMAGE_TLV_INFO_MAGIC : Z := 0x6907.
Definition IMAGE_TLV_PROT_INFO_MAGIC : Z := 0x6908.
Definition IMAGE_TLV_ANY : Z := 0xffff.

(** Modelled from the spec: "the trailer's starting byte offset from the
    header"; the macro of bootutil/image.h adds the header size and the image
    size in [uint32_t]. *)
Definition BOOT_TLV_OFF (h : image_header) : Z :=
  add32 (ih_hdr_size h) (ih_img_size h).

(** [sizeof(struct image_tlv_info)] and [sizeof(struct image_tlv)]: two
    [uint16_t] each. *)
Definition sizeof_info : Z := 4.
Definition sizeof_tlv : Z := 4.

(** ** Reading through the accessor *)

(** The macro [LOAD_IMAGE_DATA(hdr, fap, start, output, size)] of
    bootutil_priv.h, a call of the accessor: [None] is a non-zero return
    code, [Some bs] the bytes stored to [output]. *)
Definition LOAD_IMAGE_DATA (h : image_header) (f : flash_area)
    (start : Z) (size : nat) : option (list byte) :=
  flash_area_read f start size.

Definition byte_val (b : byte) : Z := Z.of_N (Strings.Byte.to_N b).

(** Little-endian [uint16_t] at index [i] of a buffer ("all integers
    little-endian"). *)
Definition le16 (bs : list byte) (i : nat) : Z :=
  byte_val (nth i bs x00) + 256 * byte_val (nth (S i) bs x00).

(** The struct overlay of the two headers on the bytes read. *)
Definition decode_info (bs : list byte) : image_tlv_info :=
  {| it_magic := le16 bs 0; it_tlv_tot := le16 bs 2 |}.

Definition decode_tlv (bs : list byte) : image_tlv :=
  {| it_type := le16 bs 0; it_len := le16 bs 2 |}.

Definition load_info (h : image_header) (f : flash_area) (off : Z)
    : option image_tlv_info :=
  option_map decode_info (LOAD_IMAGE_DATA h f off (Z.to_nat sizeof_info)).

Definition load_tlv (h : image_header) (f : flash_area) (off : Z)
    : option image_tlv :=
  option_map decode_tlv (LOAD_IMAGE_DATA h f off (Z.to_nat sizeof_tlv)).

(** ** Results *)

(** Every error site of tlv.c is a [return -1]; the constructor records the
    check that failed, in the vocabulary of the error taxonomy. *)
Inductive error :=
| InvalidArgument   (* a NULL argument of begin *)
| InvalidState      (* a NULL iterator, header or flash area *)
| ReadFailure       (* LOAD_IMAGE_DATA returned non-zero *)
| CorruptFormat.    (* a magic or protected-size check failed *)

Inductive begin_result :=
| BeginOk
| BeginErr (e : error).

Inductive next_result :=
| Found (off len : Z) (ty : option Z)
| Exhausted
| Error (e : error).

(** The C return codes. *)
Definition begin_rc (r : begin_result) : Z :=
  match r with BeginOk => 0 | BeginErr _ => -1 end.

Definition next_rc (r : next_result) : Z :=
  match r with Found _ _ _ => 0 | Exhausted => 1 | Error _ => -1 end.

(** ** bootutil_tlv_iter_begin *)

(** [off_]: the start of the TLV area. *)
Definition area_start (swap_using_offset : bool) (it : image_tlv_iter)
    (h : image_header) : Z :=
  if swap_using_offset then add32 (BOOT_TLV_OFF h) (start_off it)
  else BOOT_TLV_OFF h.

(** Lines 78-90: the last magic check and the stores to the iterator. *)
Definition begin_store (it : image_tlv_iter) (h : image_header)
    (f : flash_area) (p_type : Z) (p_prot : bool) (off_ : Z)
    (info : image_tlv_info) : begin_result * image_tlv_iter :=
  if negb (it_magic info =? IMAGE_TLV_INFO_MAGIC) then
    (BeginErr CorruptFormat, it)
  else
    (BeginOk,
     {| hdr := Some h;
        fap := Some f;
        type := p_type;
        prot := p_prot;
        prot_end := add32 off_ (ih_protect_tlv_size h);
        tlv_off := add32 off_ sizeof_info;
        start_off := start_off it;
        tlv_end := add32 (add32 off_ (ih_protect_tlv_size h))
                         (it_tlv_tot info) |}).

(** Lines 55-90, for non-NULL arguments. *)
Definition begin_checked (swap_using_offset : bool) (it : image_tlv_iter)
    (h : image_header) (f : flash_area) (p_type : Z) (p_prot : bool)
    : begin_result * image_tlv_iter * list Z :=
  let off_ := area_start swap_using_offset it h in
  match load_info h f off_ with
  | None => (BeginErr ReadFailure, it, [off_])
  | Some info =>
    if it_magic info =? IMAGE_TLV_PROT_INFO_MAGIC then
      if negb (ih_protect_tlv_size h =? it_tlv_tot info) then
        (BeginErr CorruptFormat, it, [off_])
      else
        let off2 := add32 off_ (it_tlv_tot info) in
        match load_info h f off2 with
        | None => (BeginErr ReadFailure, it, [off_; off2])
        | Some info2 =>
          (begin_store it h f p_type p_prot off_ info2, [off_; off2])
        end
    else if negb (ih_protect_tlv_size h =? 0) then
      (BeginErr CorruptFormat, it, [off_])
    else
      (begin_store it h f p_type p_prot off_ info, [off_])
  end.

Definition bootutil_tlv_iter_begin (swap_using_offset : bool)
    (it : option image_tlv_iter) (p_hdr : option image_header)
    (p_fap : option flash_area) (p_type : Z) (p_prot : bool)
    : begin_result * option image_tlv_iter * list Z :=
  match it, p_hdr, p_fap with
  | Some i, Some h, Some f =>
    let '(r, i', tr) := begin_checked swap_using_offset i h f p_type p_prot in
    (r, Some i', tr)
  | _, _, _ => (BeginErr InvalidArgument, it, [])
  end.

(** ** bootutil_tlv_iter_next *)

Definition set_tlv_off (it : image_tlv_iter) (o : Z) : image_tlv_iter :=
  {| hdr := hdr it; fap := fap it; type := type it; prot := prot it;
     prot_end := prot_end it; tlv_off := o; start_off := start_off it;
     tlv_end := tlv_end it |}.

(** Lines 120-122: the step over the second [image_tlv_info]. *)
Definition skip_info (h : image_header) (it : image_tlv_iter) : Z :=
  if (0 <? ih_protect_tlv_size h) && (tlv_off it =? prot_end it)
  then add32 (tlv_off it) sizeof_info
  else tlv_off it.

Inductive body_result :=
| Return (r : next_result)
| Continue.

(** One iteration of the [while] loop (lines 120-149).  [p_type] tells
    whether the [type] out-pointer is non-NULL.  The iteration makes exactly
    one call of [LOAD_IMAGE_DATA], at the offset returned last. *)
Definition next_body (h : image_header) (f : flash_area)
    (it : image_tlv_iter) (p_type : bool)
    : body_result * image_tlv_iter * Z :=
  let c := skip_info h it in
  let it1 := set_tlv_off it c in
  match load_tlv h f c with
  | None => (Return (Error ReadFailure), it1, c)
  | Some tlv =>
    if prot it && (prot_end it <=? c) then
      (Return Exhausted, it1, c)
    else
      let it2 := set_tlv_off it (add32 c (sizeof_tlv + it_len tlv)) in
      if (type it =? IMAGE_TLV_ANY) || (it_type tlv =? type it) then
        (Return (Found (add32 c sizeof_tlv) (it_len tlv)
                       (if p_type then Some (it_type tlv) else None)),
         it2, c)
      else (Continue, it2, c)
  end.

(** The [while] loop; [None] when [fuel] iterations did not reach a
    [return]. *)
Fixpoint next_loop (fuel : nat) (h : image_header) (f : flash_area)
    (it : image_tlv_iter) (p_type : bool)
    : option (next_result * image_tlv_iter * list Z) :=
  if negb (tlv_off it <? tlv_end it) then Some (Exhausted, it, [])
  else
    match fuel with
    | O => None
    | S n =>
      match next_body h f it p_type with
      | (Return r, it1, c) => Some (r, it1, [c])
      | (Continue, it1, c) =>
        match next_loop n h f it1 p_type with
        | Some (r, it2, tr) => Some (r, it2, c :: tr)
        | None => None
        end
      end
    end.

Definition bootutil_tlv_iter_next (fuel : nat) (it : option image_tlv_iter)
    (p_type : bool)
    : option (next_result * option image_tlv_iter * list Z) :=
  match it with
  | None => Some (Error InvalidState, None, [])
  | Some i =>
    match hdr i, fap i with
    | Some h, Some f =>
      match next_loop fuel h f i p_type with
      | Some (r, i', tr) => Some (r, Some i', tr)
      | None => None
      end
    | _, _ => Some (Error InvalidState, it, [])
    end
  end.

(** ** bootutil_tlv_iter_is_prot *)

(** The C function returns [-1], or the comparison as [0] or [1]. *)
Definition bootutil_tlv_iter_is_prot (it : option image_tlv_iter) (off : Z)
    : Z * option image_tlv_iter * list Z :=
  match it with
  | None => (-1, it, [])
  | Some i =>
    match hdr i, fap i with
    | Some _, Some _ => ((if off <? prot_end i then 1 else 0), it, [])
    | _, _ => (-1, it, [])
    end
  end.

(** The code's own test of an initialized iterator. *)
Definition initialized (it : image_tlv_iter) : bool :=
  match hdr it, fap it with
  | Some _, Some _ => true
  | _, _ => false
  end.

(** ** Predicates of the statements *)

(** The four ways through one iteration. *)
Inductive body_case (h : image_header) (f : flash_area) (it : image_tlv_iter)
    (tp : bool) : body_result * image_tlv_iter * Z -> Prop :=
| body_read_failure :
    load_tlv h f (skip_info h it) = None ->
    body_case h f it tp
      (Return (Error ReadFailure), set_tlv_off it (skip_info h it),
       skip_info h it)
| body_prot_exhausted t :
    load_tlv h f (skip_info h it) = Some t ->
    prot it = true -> prot_end it <= skip_info h it ->
    body_case h f it tp
      (Return Exhausted, set_tlv_off it (skip_info h it), skip_info h it)
| body_found t :
    load_tlv h f (skip_info h it) = Some t ->
    (prot it = false \/ skip_info h it < prot_end it) ->
    (type it = IMAGE_TLV_ANY \/ it_type t = type it) ->
    body_case h f it tp
      (Return (Found (add32 (skip_info h it) sizeof_tlv) (it_len t)
                     (if tp then Some (it_type t) else None)),
       set_tlv_off it (add32 (skip_info h it) (sizeof_tlv + it_len t)),
       skip_info h it)
| body_skip t :
    load_tlv h f (skip_info h it) = Some t ->
    (prot it = false \/ skip_info h it < prot_end it) ->
    type it <> IMAGE_TLV_ANY -> it_type t <> type it ->
    body_case h f it tp
      (Continue,
       set_tlv_off it (add32 (skip_info h it) (sizeof_tlv + it_len t)),
       skip_info h it).

(** The reach of the cursor arithmetic: one iteration adds to a cursor
    below [tlv_end] at most [sizeof_info + sizeof_tlv + UINT16_MAX]. *)
Definition MAX_STEP : Z := sizeof_info + sizeof_tlv + UINT16_MAX.

(** The cursor is a [uint32_t] and [tlv_end] is more than [MAX_STEP] below
    2^32. *)
Definition no_wrap (it : image_tlv_iter) : Prop :=
  0 <= tlv_off it /\ tlv_end it + MAX_STEP < 2 ^ 32.

(** The start offsets below which no sum of the scan wraps: the two info
    records add at most [UINT16_MAX] each to reach [tlv_end]. *)
Definition area_fits (off_ : Z) : Prop :=
  off_ + UINT16_MAX + UINT16_MAX + MAX_STEP < 2 ^ 32.

(** Iterations that the loop needs at most when no addition wraps. *)
Definition fuel_bound (it : image_tlv_iter) : nat :=
  Z.to_nat ((tlv_end it - tlv_off it + 3) / 4).

(** [advances it it']: [it'] is the iterator [it] after some sequence of
    calls of [bootutil_tlv_iter_next] (any results, any [type] pointers). *)
Inductive advances : image_tlv_iter -> image_tlv_iter -> Prop :=
| advances_refl it : advances it it
| advances_next it fuel tp r it1 tr it2 :
    bootutil_tlv_iter_next fuel (Some it) tp = Some (r, Some it1, tr) ->
    advances it1 it2 ->
    advances it it2.

(** The conditions on the first info record under which initialization
    reports a corrupt trailer: a protected-info record whose total length
    differs from the header's protected size; a magic that is neither of the
    two; a plain-info record although the header declares a protected area. *)
Definition corrupt_first (h : image_header) (info : image_tlv_info) : Prop :=
  (it_magic info = IMAGE_TLV_PROT_INFO_MAGIC /\
   it_tlv_tot info <> ih_protect_tlv_size h) \/
  (it_magic info <> IMAGE_TLV_PROT_INFO_MAGIC /\
   it_magic info <> IMAGE_TLV_INFO_MAGIC) \/
  (ih_protect_tlv_size h <> 0 /\ it_magic info = IMAGE_TLV_INFO_MAGIC).

(** The condition on the second info record: the first one is a
    protected-info record of the declared size, and the record read after the
    protected area does not carry the plain-info magic. *)
Definition corrupt_second (h : image_header) (f : flash_area) (off_ : Z)
    (info : image_tlv_info) : Prop :=
  it_magic info = IMAGE_TLV_PROT_INFO_MAGIC /\
  it_tlv_tot info = ih_protect_tlv_size h /\
  exists info2,
    load_info h f (add32 off_ (it_tlv_tot info)) = Some info2 /\
    it_magic info2 <> IMAGE_TLV_INFO_MAGIC.

(** A region of [size] bytes whose reads are bounds-checked: a read that
    ends past [size] fails. *)
Definition bounds_checked (f : flash_area) (size : Z) : Prop :=
  forall off len, size < off + Z.of_nat len -> flash_area_read f off len = None.

(** ** Concrete storage for the scenarios *)

(** A bounds-checked region holding [data] from offset 0. *)
Definition flash_of_bytes (data : list byte) : flash_area :=
  {| flash_area_read := fun off len =>
       if (0 <=? off) && (off + Z.of_nat len <=? Z.of_nat (length data))
       then Some (firstn len (skipn (Z.to_nat off) data))
       else None |}.

(** An iterator as the caller declares it, before [begin]. *)
Definition fresh_iter : image_tlv_iter :=
  {| hdr := None; fap := None; type := 0; prot := false; prot_end := 0;
     tlv_off := 0; start_off := 0; tlv_end := 0 |}.

(** Header of an image whose trailer starts at offset 32. *)
Definition hdr_at32 (protect : Z) : image_header :=
  {| ih_hdr_size := 32; ih_protect_tlv_size := protect; ih_img_size := 0 |}.

(** [plain-info(12)] [TLV(type 1, len 4)] and its payload. *)
Definition trailer_plain12 : list byte :=
  repeat x00 32 ++
  [x07; x69; x0c; x00;  x01; x00; x04; x00;  xaa; xbb; xcc; xdd].

(** The iterator over [trailer_plain12] after [begin] with filter 1. *)
Definition plain12_it : image_tlv_iter :=
  {| hdr := Some (hdr_at32 0); fap := Some (flash_of_bytes trailer_plain12);
     type := 1; prot := false; prot_end := 32; tlv_off := 36;
     start_off := 0; tlv_end := 44 |}.

(** [protected-info(8)] [TLV(type 2, len 0)] [plain-info(4)], followed by
    four erased bytes of the slot. *)
Definition trailer_prot8 : list byte :=
  repeat x00 32 ++
  [x08; x69; x08; x00;  x02; x00; x00; x00;  x07; x69; x04; x00;
   xff; xff; xff; xff].

(** [protected-info(8)] [TLV(type 2, len 0)] [plain-info(12)]
    [TLV(type 1, len 4)] and its payload: one record in either area. *)
Definition trailer_prot8_general : list byte :=
  repeat x00 32 ++
  [x08; x69; x08; x00;  x02; x00; x00; x00;  x07; x69; x0c; x00;
   x01; x00; x04; x00;  xaa; xbb; xcc; xdd].

(** [protected-info(8)] [TLV(type 2, len 0)] and a second info record whose
    magic is zero. *)
Definition trailer_bad_second : list byte :=
  repeat x00 32 ++
  [x08; x69; x08; x00;  x02; x00; x00; x00;  x00; x00; x04; x00].

(** The iterator over a trailer with a protected area of 8 bytes, after
    [begin] with the wildcard filter and the protected flag set. *)
Definition prot8_it (data : list byte) (total : Z) : image_tlv_iter :=
  {| hdr := Some (hdr_at32 8); fap := Some (flash_of_bytes data);
     type := IMAGE_TLV_ANY; prot := true; prot_end := 40; tlv_off := 36;
     start_off := 0; tlv_end := 40 + total |}.

(** The same, with the protected flag clear. *)
Definition any8_it (data : list byte) (total : Z) : image_tlv_iter :=
  {| hdr := Some (hdr_at32 8); fap := Some (flash_of_bytes data);
     type := IMAGE_TLV_ANY; prot := false; prot_end := 40; tlv_off := 36;
     start_off := 0; tlv_end := 40 + total |}.

(** ** Storage at the top of the address space *)

(** Header of an image whose trailer starts 16 bytes below 2^32, at
    4294967280 = 0xfffffff0. *)
Definition hdr_top : image_header :=
  {| ih_hdr_size := 0; ih_protect_tlv_size := 0; ih_img_size := 4294967280 |}.

(** A region that is read at the top of the address space only:
    [plain-info(32)] at the start of the area. *)
Definition flash_top : flash_area :=
  {| flash_area_read := fun off len =>
       if off =? 4294967280 then Some [x07; x69; x20; x00] else None |}.

(** A region read at the top and at the bottom of the address space:
    [plain-info(15)], then [TLV(type 1, len 8)] whose end is 2^32, and
    [TLV(type 1, len 0)] at offset 0. *)
Definition flash_wrap : flash_area :=
  {| flash_area_read := fun off len =>
       if off =? 4294967280 then Some [x07; x69; x0f; x00]
       else if off =? 4294967284 then Some [x01; x00; x08; x00]
       else if off =? 0 then Some [x01; x00; x00; x00]
       else None |}.

(** The iterator over [flash_wrap] after [begin] with the wildcard filter:
    [tlv_end] is 2^32 - 1 and the cursor 2^32 - 12. *)
Definition wrap_it : image_tlv_iter :=
  {| hdr := Some hdr_top; fap := Some flash_wrap; type := IMAGE_TLV_ANY;
     prot := false; prot_end := 4294967280; tlv_off := 4294967284;
     start_off := 0; tlv_end := 4294967295 |}.

(** A region that is read everywhere: [plain-info(15)] at the start of the
    area, [TLV(type 0, len 8)] after it, whose end is 2^32,
    [TLV(type 0, len 4)] before it, whose end is the record after the info
    record, and [TLV(type 0, len 0)] at every other offset. *)
Definition flash_cycle : flash_area :=
  {| flash_area_read := fun off len =>
       if off =? 4294967280 then Some [x07; x69; x0f; x00]
       else if off =? 4294967284 then Some [x00; x00; x08; x00]
       else if off =? 4294967276 then Some [x00; x00; x04; x00]
       else Some [x00; x00; x00; x00] |}.

(** The iterator over [flash_cycle] after [begin] with filter 1, which no
    record of the region matches. *)
Definition cycle_it : image_tlv_iter :=
  {| hdr := Some hdr_top; fap := Some flash_cycle; type := 1;
     prot := false; prot_end := 4294967280; tlv_off := 4294967284;
     start_off := 0; tlv_end := 4294967295 |}.

(** The offsets that the cursor of [cycle_it] visits. *)
Definition on_cycle (o : Z) : Prop :=
  o = 4294967284 \/ (0 <= o <= 4294967276 /\ o mod 4 = 0).

(** A region read at offset 0 only: [TLV(type 1, len 0)]. *)
Definition flash_low : flash_area :=
  {| flash_area_read := fun off len =>
       if off =? 0 then Some [x01; x00; x00; x00] else None |}.

(** An iterator whose protected area ends four bytes below 2^32, with the
    protected flag set and the cursor at [prot_end]. *)
Definition prot_top_it : image_tlv_iter :=
  {| hdr := Some (hdr_at32 8); fap := Some flash_low;
     type := IMAGE_TLV_ANY; prot := true; prot_end := 4294967292;
     tlv_off := 4294967292; start_off := 0; tlv_end := 4294967295 |}.

(** ** Trailers laid out in storage *)

(** The bytes that the records [rs] take, headers and payloads. *)
Fixpoint records_size (rs : list image_tlv) : Z :=
  match rs with
  | [] => 0
  | t :: rest => sizeof_tlv + it_len t + records_size rest
  end.

(** [laid_out h f o rs]: the headers of [rs] are read back to back from
    offset [o], each one [it_len] bytes after the end of the one before. *)
Fixpoint laid_out (h : image_header) (f : flash_area) (o : Z)
    (rs : list image_tlv) : Prop :=
  match rs with
  | [] => True
  | t :: rest =>
    load_tlv h f o = Some t /\
    laid_out h f (o + sizeof_tlv + it_len t) rest
  end.

(** The test of line 137. *)
Definition tlv_matches (filter : Z) (t : image_tlv) : bool :=
  (filter =? IMAGE_TLV_ANY) || (it_type t =? filter).

(** The records of [rs], laid out from [o], that pass the filter: payload
    offset, length, and the type where the [type] pointer is non-NULL. *)
Fixpoint expected (filter : Z) (tp : bool) (o : Z) (rs : list image_tlv)
    : list (Z * Z * option Z) :=
  match rs with
  | [] => []
  | t :: rest =>
    let tail := expected filter tp (o + sizeof_tlv + it_len t) rest in
    if tlv_matches filter t
    then (o + sizeof_tlv, it_len t, if tp then Some (it_type t) else None)
           :: tail
    else tail
  end.

(** [scans tp it out it']: calling [bootutil_tlv_iter_next] on [it] until
    it returns 1 yields the [Found] results [out], in order, and leaves
    [it']. *)
Inductive scans (tp : bool)
    : image_tlv_iter -> list (Z * Z * option Z) -> image_tlv_iter -> Prop :=
| scans_done it fuel it' tr :
    bootutil_tlv_iter_next fuel (Some it) tp
      = Some (Exhausted, Some it', tr) ->
    scans tp it [] it'
| scans_found it fuel off len ty it1 tr out it' :
    bootutil_tlv_iter_next fuel (Some it) tp
      = Some (Found off len ty, Some it1, tr) ->
    scans tp it1 out it' ->
    scans tp it ((off, len, ty) :: out) it'.

(** The records between [o] and [e] are scanned without the step over the
    info record and without the protected-only stop: the area ends at
    [prot_end] or before, or it starts after [prot_end] and the protected
    flag is clear. *)
Definition in_area (it : image_tlv_iter) (o e : Z) : Prop :=
  e <= prot_end it \/ (prot_end it < o /\ prot it = false).

(** A trailer without protected area at [off_]: plain-info, then [rs]. *)
Definition plain_trailer (h : image_header) (f : flash_area) (off_ : Z)
    (rs : list image_tlv) : Prop :=
  ih_protect_tlv_size h = 0 /\
  load_info h f off_
    = Some {| it_magic := IMAGE_TLV_INFO_MAGIC;
              it_tlv_tot := sizeof_info + records_size rs |} /\
  laid_out h f (off_ + sizeof_info) rs /\
  off_ + sizeof_info + records_size rs < 2 ^ 32.

(** A trailer with a protected area at [off_]: protected-info, the
    protected records [ps], plain-info, the general records [gs]. *)
Definition prot_trailer (h : image_header) (f : flash_area) (off_ : Z)
    (ps gs : list image_tlv) : Prop :=
  ih_protect_tlv_size h = sizeof_info + records_size ps /\
  load_info h f off_
    = Some {| it_magic := IMAGE_TLV_PROT_INFO_MAGIC;
              it_tlv_tot := sizeof_info + records_size ps |} /\
  laid_out h f (off_ + sizeof_info) ps /\
  load_info h f (off_ + sizeof_info + records_size ps)
    = Some {| it_magic := IMAGE_TLV_INFO_MAGIC;
              it_tlv_tot := sizeof_info + records_size gs |} /\
  laid_out h f (off_ + sizeof_info + records_size ps + sizeof_info) gs /\
  off_ + sizeof_info + records_size ps + sizeof_info + records_size gs
    < 2 ^ 32.

(** The iterator that [bootutil_tlv_iter_begin] stores for a trailer at
    [off_] with [protect] protected bytes and a plain total of [total]. *)
Definition begun (it : image_tlv_iter) (h : image_header) (f : flash_area)
    (p_type : Z) (p_prot : bool) (off_ protect total : Z) : image_tlv_iter :=
  {| hdr := Some h; fap := Some f; type := p_type; prot := p_prot;
     prot_end := off_ + protect; tlv_off := off_ + sizeof_info;
     start_off := start_off it; tlv_end := off_ + protect + total |}.

(** ** Machine arithmetic *)

Lemma wrap32_range z : 0 <= wrap32 z < 2 ^ 32.
Proof. unfold wrap32. apply Z.mod_pos_bound. reflexivity. Qed.

Lemma wrap32_small z : 0 <= z < 2 ^ 32 -> wrap32 z = z.
Proof. intros Hz. unfold wrap32. now apply Z.mod_small. Qed.

Lemma add32_range a b : 0 <= add32 a b < 2 ^ 32.
Proof. apply wrap32_range. Qed.

Lemma add32_small a b : 0 <= a + b < 2 ^ 32 -> add32 a b = a + b.
Proof. apply wrap32_small. Qed.

Lemma add32_add32_l a b c : add32 (add32 a b) c = add32 a (b + c).
Proof.
  unfold add32, wrap32. rewrite Zplus_mod_idemp_l. f_equal. lia.
Qed.

Lemma add32_0_r a : 0 <= a < 2 ^ 32 -> add32 a 0 = a.
Proof. intros Ha. rewrite add32_small; lia. Qed.

Lemma byte_val_range b : 0 <= byte_val b <= 255.
Proof.
  unfold byte_val. pose proof (Strings.Byte.to_N_bounded b). lia.
Qed.

Lemma le16_range bs i : 0 <= le16 bs i <= UINT16_MAX.
Proof.
  unfold le16, UINT16_MAX.
  pose proof (byte_val_range (nth i bs x00)).
  pose proof (byte_val_range (nth (S i) bs x00)).
  lia.
Qed.

Lemma load_tlv_range h f c t :
  load_tlv h f c = Some t ->
  0 <= it_type t <= UINT16_MAX /\ 0 <= it_len t <= UINT16_MAX.
Proof.
  unfold load_tlv. destruct (LOAD_IMAGE_DATA h f c _); simpl; [|discriminate].
  intros [= <-]. simpl. split; apply le16_range.
Qed.

Lemma load_info_range h f c i :
  load_info h f c = Some i ->
  0 <= it_magic i <= UINT16_MAX /\ 0 <= it_tlv_tot i <= UINT16_MAX.
Proof.
  unfold load_info. destruct (LOAD_IMAGE_DATA h f c _); simpl; [|discriminate].
  intros [= <-]. simpl. split; apply le16_range.
Qed.

Lemma area_start_range swap it h : 0 <= area_start swap it h < 2 ^ 32.
Proof.
  unfold area_start, BOOT_TLV_OFF. destruct swap; apply add32_range.
Qed.

Lemma magic_distinct : IMAGE_TLV_PROT_INFO_MAGIC <> IMAGE_TLV_INFO_MAGIC.
Proof. discriminate. Qed.

(** Every error is the return code -1, [Found] is 0 and [Exhausted] 1. *)
Remark error_rc e : begin_rc (BeginErr e) = -1 /\ next_rc (Error e) = -1.
Proof. split; reflexivity. Qed.

(** ** Initialization *)

(** The stores of [begin_store], read back. *)
Lemma begin_store_ok it h f ty pr off_ info it' :
  begin_store it h f ty pr off_ info = (BeginOk, it') ->
  it_magic info = IMAGE_TLV_INFO_MAGIC /\
  hdr it' = Some h /\ fap it' = Some f /\ type it' = ty /\ prot it' = pr /\
  prot_end it' = add32 off_ (ih_protect_tlv_size h) /\
  tlv_end it' = add32 (prot_end it') (it_tlv_tot info) /\
  tlv_off it' = add32 off_ sizeof_info /\
  start_off it' = start_off it.
Proof.
  unfold begin_store.
  destruct (it_magic info =? IMAGE_TLV_INFO_MAGIC) eqn:Hm; simpl; [|discriminate].
  intros [= <-]. simpl. apply Z.eqb_eq in Hm. repeat split; assumption.
Qed.

Lemma begin_store_err it h f ty pr off_ info r it' :
  begin_store it h f ty pr off_ info = (r, it') ->
  r <> BeginOk -> it' = it /\ r = BeginErr CorruptFormat /\
                  it_magic info <> IMAGE_TLV_INFO_MAGIC.
Proof.
  unfold begin_store.
  destruct (it_magic info =? IMAGE_TLV_INFO_MAGIC) eqn:Hm; simpl;
    intros [= <- <-] Hr; [congruence|].
  apply Z.eqb_neq in Hm. auto.
Qed.

(** What a successful [begin_checked] has read and stored.  The plain info
    record is the one at [prot_end]: the first record when there is no
    protected area, the second one otherwise. *)
Lemma begin_checked_ok swap it h f ty pr it' tr :
  begin_checked swap it h f ty pr = (BeginOk, it', tr) ->
  let off_ := area_start swap it h in
  exists plain,
    load_info h f (prot_end it') = Some plain /\
    it_magic plain = IMAGE_TLV_INFO_MAGIC /\
    0 <= ih_protect_tlv_size h <= UINT16_MAX /\
    hdr it' = Some h /\ fap it' = Some f /\ type it' = ty /\ prot it' = pr /\
    prot_end it' = add32 off_ (ih_protect_tlv_size h) /\
    tlv_end it' = add32 (prot_end it') (it_tlv_tot plain) /\
    tlv_off it' = add32 off_ sizeof_info /\
    start_off it' = start_off it.
Proof.
  intros H off_. unfold begin_checked in H. fold off_ in H.
  pose proof (area_start_range swap it h) as Hoff. fold off_ in Hoff.
  destruct (load_info h f off_) as [info|] eqn:H1; [|discriminate].
  destruct (it_magic info =? IMAGE_TLV_PROT_INFO_MAGIC) eqn:Hm.
  - destruct (ih_protect_tlv_size h =? it_tlv_tot info) eqn:Hp;
      simpl in H; [|discriminate].
    apply Z.eqb_eq in Hp.
    destruct (load_info h f (add32 off_ (it_tlv_tot info))) as [info2|] eqn:H2;
      [|discriminate].
    destruct (begin_store it h f ty pr off_ info2) as [r i2] eqn:Hs.
    injection H as -> -> <-.
    apply begin_store_ok in Hs. destruct Hs as (Hmg & Hh & Hf & Ht & Hpr & Hpe & Hrest).
    exists info2. rewrite Hpe, Hp. repeat split; try tauto.
    + apply (load_info_range _ _ _ _ H1).
    + apply (load_info_range _ _ _ _ H1).
    + rewrite <- Hp, <- Hpe. tauto.
  - destruct (ih_protect_tlv_size h =? 0) eqn:Hp; simpl in H; [|discriminate].
    apply Z.eqb_eq in Hp.
    destruct (begin_store it h f ty pr off_ info) as [r i2] eqn:Hs.
    injection H as -> -> <-.
    apply begin_store_ok in Hs. destruct Hs as (Hmg & Hh & Hf & Ht & Hpr & Hpe & Hrest).
    exists info. rewrite Hpe, Hp, add32_0_r by assumption.
    repeat split; try tauto; try (unfold UINT16_MAX; lia).
    rewrite <- (add32_0_r off_) at 1 by assumption.
    rewrite <- Hp, <- Hpe. tauto.
Qed.

Lemma begin_checked_err swap it h f ty pr r it' tr :
  begin_checked swap it h f ty pr = (r, it', tr) ->
  r <> BeginOk -> it' = it.
Proof.
  unfold begin_checked.
  destruct (load_info h f _) as [info|]; [|now intros [= <- <- <-]].
  destruct (it_magic info =? IMAGE_TLV_PROT_INFO_MAGIC).
  - destruct (negb _); [now intros [= <- <- <-]|].
    destruct (load_info h f _) as [info2|]; [|now intros [= <- <- <-]].
    destruct (begin_store _ _ _ _ _ _ info2) as [r2 i2] eqn:Hs.
    intros [= <- <- <-] Hr. now apply (begin_store_err _ _ _ _ _ _ _ _ _ Hs).
  - destruct (negb _); [now intros [= <- <- <-]|].
    destruct (begin_store _ _ _ _ _ _ info) as [r2 i2] eqn:Hs.
    intros [= <- <- <-] Hr. now apply (begin_store_err _ _ _ _ _ _ _ _ _ Hs).
Qed.

Lemma begin_some_inv swap it h f ty pr r it' tr :
  bootutil_tlv_iter_begin swap (Some it) (Some h) (Some f) ty pr
    = (r, Some it', tr) ->
  begin_checked swap it h f ty pr = (r, it', tr).
Proof.
  unfold bootutil_tlv_iter_begin.
  destruct (begin_checked swap it h f ty pr) as [[r0 i0] tr0].
  now intros [= <- <- <-].
Qed.

(** ** The scan loop *)

Lemma set_tlv_off_set it a b : set_tlv_off (set_tlv_off it a) b = set_tlv_off it b.
Proof. reflexivity. Qed.

Lemma set_tlv_off_same it : set_tlv_off it (tlv_off it) = it.
Proof. now destruct it. Qed.

Lemma next_body_case h f it tp : body_case h f it tp (next_body h f it tp).
Proof.
  unfold next_body.
  destruct (load_tlv h f (skip_info h it)) as [t|] eqn:Hload.
  2: now constructor.
  destruct (prot it && (prot_end it <=? skip_info h it)) eqn:Hstop.
  - apply andb_true_iff in Hstop. destruct Hstop as [Hp Hle].
    apply Z.leb_le in Hle. now apply body_prot_exhausted with t.
  - assert (Hin : prot it = false \/ skip_info h it < prot_end it).
    { apply andb_false_iff in Hstop. destruct Hstop as [Hp|Hle]; [now left|].
      apply Z.leb_gt in Hle. now right. }
    destruct ((type it =? IMAGE_TLV_ANY) || (it_type t =? type it)) eqn:Hm.
    + apply body_found; auto.
      apply orb_true_iff in Hm. destruct Hm as [Hm|Hm]; apply Z.eqb_eq in Hm; auto.
    + apply orb_false_iff in Hm. destruct Hm as [Ha Hb].
      apply Z.eqb_neq in Ha, Hb. now apply body_skip.
Qed.

Lemma triple_inj {A B C : Type} (a a' : A) (b b' : B) (c c' : C) :
  (a, b, c) = (a', b', c') -> a = a' /\ b = b' /\ c = c'.
Proof. intros [= -> -> ->]. auto. Qed.

Lemma Return_inj r r' : Return r = Return r' -> r = r'.
Proof. now intros [= ->]. Qed.

(** Case analysis of an iteration [Hb : next_body h f it tp = (o, it1, c)];
    [Ho] names what is left of the equation of the outcome. *)
Ltac body_cases Hb Ho :=
  match type of Hb with
  | next_body ?h ?f ?it ?tp = _ =>
    revert Hb; destruct (next_body_case h f it tp);
    intros Hb; apply triple_inj in Hb; destruct Hb as (Ho & <- & <-);
    try discriminate Ho; try apply Return_inj in Ho
  end.

Section LoopElim.
Variables (h : image_header) (f : flash_area) (tp : bool).
Variable P : image_tlv_iter -> next_result * image_tlv_iter * list Z -> Prop.

Hypothesis P_exit : forall it,
  tlv_end it <= tlv_off it -> P it (Exhausted, it, []).
Hypothesis P_return : forall it r it1 c,
  tlv_off it < tlv_end it ->
  next_body h f it tp = (Return r, it1, c) -> P it (r, it1, [c]).
Hypothesis P_continue : forall it it1 c r it2 tr,
  tlv_off it < tlv_end it ->
  next_body h f it tp = (Continue, it1, c) ->
  P it1 (r, it2, tr) -> P it (r, it2, c :: tr).

(** Induction over the iterations of a run of the loop that returns. *)
Lemma next_loop_elim fuel : forall it res,
  next_loop fuel h f it tp = Some res -> P it res.
Proof.
  induction fuel as [|n IH]; intros it res; simpl;
    destruct (tlv_off it <? tlv_end it) eqn:Hlt; simpl.
  - discriminate.
  - apply Z.ltb_ge in Hlt. intros [= <-]. now apply P_exit.
  - apply Z.ltb_lt in Hlt.
    destruct (next_body h f it tp) as [[[r|] it1] c] eqn:Hb.
    + intros [= <-]. now apply P_return.
    + destruct (next_loop n h f it1 tp) as [[[r it2] tr]|] eqn:Hl;
        [|discriminate].
      intros [= <-]. apply P_continue with it1; auto.
  - apply Z.ltb_ge in Hlt. intros [= <-]. now apply P_exit.
Qed.
End LoopElim.

(** More fuel does not change a result. *)
Lemma next_loop_fuel_mono h f tp n : forall m it res,
  (n <= m)%nat ->
  next_loop n h f it tp = Some res -> next_loop m h f it tp = Some res.
Proof.
  induction n as [|n IH]; intros m it res Hle; simpl;
    destruct (tlv_off it <? tlv_end it) eqn:Hlt; simpl.
  - discriminate.
  - intros [= <-]. destruct m; simpl; now rewrite Hlt.
  - destruct m as [|m]; [lia|]. simpl. rewrite Hlt. simpl.
    destruct (next_body h f it tp) as [[[r|] it1] c]; auto.
    destruct (next_loop n h f it1 tp) as [[[r it2] tr]|] eqn:Hl; [|discriminate].
    intros [= <-]. rewrite (IH m it1 _ ltac:(lia) Hl). reflexivity.
  - intros [= <-]. destruct m; simpl; now rewrite Hlt.
Qed.

Lemma next_loop_deterministic h f tp n m it r1 r2 :
  next_loop n h f it tp = Some r1 -> next_loop m h f it tp = Some r2 ->
  r1 = r2.
Proof.
  intros H1 H2.
  apply (next_loop_fuel_mono _ _ _ _ (Nat.max n m)) in H1; [|lia].
  apply (next_loop_fuel_mono _ _ _ _ (Nat.max n m)) in H2; [|lia].
  congruence.
Qed.

(** Only the cursor is written by the loop. *)
Lemma next_body_frame h f it tp o it1 c :
  next_body h f it tp = (o, it1, c) -> it1 = set_tlv_off it (tlv_off it1).
Proof.
  intros Hb. body_cases Hb Ho; reflexivity.
Qed.

Lemma next_loop_frame h f tp fuel it r it' tr :
  next_loop fuel h f it tp = Some (r, it', tr) ->
  it' = set_tlv_off it (tlv_off it').
Proof.
  intros H.
  apply (next_loop_elim h f tp
           (fun it res => snd (fst res) = set_tlv_off it (tlv_off (snd (fst res)))))
    in H; auto; simpl; clear.
  - intros it _. now rewrite set_tlv_off_same.
  - intros it r it1 c _ Hb. now apply next_body_frame in Hb.
  - intros it it1 c r it2 tr _ Hb IH. simpl in IH.
    apply next_body_frame in Hb. rewrite IH, Hb at 1. reflexivity.
Qed.

(** Unfolding of [bootutil_tlv_iter_next] on an initialized iterator. *)
Lemma next_initialized fuel it tp h f :
  hdr it = Some h -> fap it = Some f ->
  bootutil_tlv_iter_next fuel (Some it) tp =
  match next_loop fuel h f it tp with
  | Some (r, i', tr) => Some (r, Some i', tr)
  | None => None
  end.
Proof. intros Hh Hf. unfold bootutil_tlv_iter_next. now rewrite Hh, Hf. Qed.

Lemma next_uninitialized fuel it tp :
  initialized it = false ->
  bootutil_tlv_iter_next fuel (Some it) tp
    = Some (Error InvalidState, Some it, []).
Proof.
  unfold initialized, bootutil_tlv_iter_next.
  destruct (hdr it), (fap it); try discriminate; reflexivity.
Qed.

(** ** The loop without wrap-around *)

Ltac unfold_consts :=
  unfold no_wrap, MAX_STEP, sizeof_info, sizeof_tlv, UINT16_MAX in *;
  change (2 ^ 32) with 4294967296 in *.

Lemma skip_info_cases h it :
  skip_info h it = tlv_off it \/
  (0 < ih_protect_tlv_size h /\ tlv_off it = prot_end it /\
   skip_info h it = add32 (tlv_off it) sizeof_info).
Proof.
  unfold skip_info.
  destruct (0 <? ih_protect_tlv_size h) eqn:Hp; simpl; auto.
  destruct (tlv_off it =? prot_end it) eqn:He; auto.
  apply Z.ltb_lt in Hp. apply Z.eqb_eq in He. auto.
Qed.

Lemma skip_info_no_wrap h it :
  no_wrap it -> tlv_off it < tlv_end it ->
  tlv_off it <= skip_info h it <= tlv_off it + sizeof_info.
Proof.
  intros [H0 Hw] Hlt.
  destruct (skip_info_cases h it) as [->|(_ & _ & ->)]; unfold_consts; [lia|].
  rewrite add32_small; change (2 ^ 32) with 4294967296; lia.
Qed.

(** One iteration moves the cursor forward: to the offset read when it
    returns without a match, past the record otherwise. *)
Lemma next_body_no_wrap h f it tp o it1 c :
  no_wrap it -> tlv_off it < tlv_end it ->
  next_body h f it tp = (o, it1, c) ->
  tlv_off it <= c <= tlv_off it + sizeof_info /\
  c <= tlv_off it1 /\ no_wrap it1 /\
  (o = Continue -> c + sizeof_tlv <= tlv_off it1) /\
  (forall off len ty, o = Return (Found off len ty) ->
     off = c + sizeof_tlv /\ tlv_off it1 = off + len /\ 0 <= len).
Proof.
  intros Hnw Hlt Hb.
  pose proof (skip_info_no_wrap h it Hnw Hlt) as Hs.
  destruct Hnw as [H0 Hw].
  assert (Hadd : forall l, 0 <= l <= UINT16_MAX ->
            add32 (skip_info h it) (sizeof_tlv + l)
            = skip_info h it + sizeof_tlv + l).
  { intros l Hl. rewrite add32_small; unfold_consts; lia. }
  assert (Hadd4 : add32 (skip_info h it) sizeof_tlv
                  = skip_info h it + sizeof_tlv).
  { rewrite add32_small; unfold_consts; lia. }
  body_cases Hb Ho; subst o; cbn [tlv_off tlv_end set_tlv_off];
    try (pose proof (load_tlv_range _ _ _ _ H) as [_ Hlen];
         rewrite ?Hadd, ?Hadd4 by assumption);
    unfold_consts; cbn [tlv_off tlv_end set_tlv_off];
    repeat split; try lia; try discriminate.
  all: match goal with
       | E : Return (Found _ _ _) = Return (Found _ _ _) |- _ =>
         injection E as <- <- <-; lia
       end.
Qed.

Lemma next_loop_no_wrap h f tp fuel it r it' tr :
  no_wrap it ->
  next_loop fuel h f it tp = Some (r, it', tr) ->
  tlv_off it <= tlv_off it' /\ no_wrap it' /\
  (forall off len ty, r = Found off len ty ->
     tlv_off it + sizeof_tlv <= off /\ off + len = tlv_off it' /\ 0 <= len).
Proof.
  intros Hnw H.
  refine (next_loop_elim h f tp
    (fun it res => no_wrap it ->
       tlv_off it <= tlv_off (snd (fst res)) /\ no_wrap (snd (fst res)) /\
       (forall off len ty, fst (fst res) = Found off len ty ->
          tlv_off it + sizeof_tlv <= off /\
          off + len = tlv_off (snd (fst res)) /\ 0 <= len))
    _ _ _ fuel it (r, it', tr) H Hnw); simpl; clear.
  - intros it _ Hnw. split; [lia|]. split; [assumption|]. discriminate.
  - intros it r it1 c Hlt Hb Hnw.
    destruct (next_body_no_wrap _ _ _ _ _ _ _ Hnw Hlt Hb)
      as (Hc & Hc1 & Hnw1 & _ & Hfound).
    split; [lia|]. split; [assumption|].
    intros off len ty ->.
    destruct (Hfound _ _ _ eq_refl) as (-> & -> & Hl). lia.
  - intros it it1 c r it2 tr Hlt Hb IH Hnw. simpl in IH.
    destruct (next_body_no_wrap _ _ _ _ _ _ _ Hnw Hlt Hb)
      as (Hc & Hc1 & Hnw1 & Hcont & _).
    specialize (Hcont eq_refl).
    destruct (IH Hnw1) as (Hle & Hnw2 & Hfound).
    unfold sizeof_tlv in *.
    split; [lia|]. split; [assumption|].
    intros off len ty ->.
    destruct (Hfound _ _ _ eq_refl) as (Ha & Hb' & Hl). lia.
Qed.

(** Termination: without wrap-around every iteration that continues moves
    the cursor at least [sizeof_tlv] closer to [tlv_end]. *)
Lemma next_loop_terminates h f tp : forall fuel it,
  no_wrap it -> (fuel_bound it <= fuel)%nat ->
  exists r it' tr,
    next_loop fuel h f it tp = Some (r, it', tr) /\
    (length tr <= fuel_bound it)%nat.
Proof.
  induction fuel as [|n IH]; intros it Hnw Hfuel; simpl;
    destruct (tlv_off it <? tlv_end it) eqn:Hlt; simpl.
  - apply Z.ltb_lt in Hlt. unfold fuel_bound in Hfuel.
    assert (1 <= (tlv_end it - tlv_off it + 3) / 4)
      by (apply Z.div_le_lower_bound; lia).
    lia.
  - exists Exhausted, it, []. split; [reflexivity|simpl; lia].
  - apply Z.ltb_lt in Hlt.
    assert (Hb1 : 1 <= (tlv_end it - tlv_off it + 3) / 4)
      by (apply Z.div_le_lower_bound; lia).
    destruct (next_body h f it tp) as [[[r|] it1] c] eqn:Hb.
    + exists r, it1, [c]. split; [reflexivity|].
      unfold fuel_bound. simpl. lia.
    + destruct (next_body_no_wrap _ _ _ _ _ _ _ Hnw Hlt Hb)
        as (Hc & Hc1 & Hnw1 & Hcont & _).
      specialize (Hcont eq_refl). unfold sizeof_tlv in Hcont.
      assert (Hte : tlv_end it1 = tlv_end it).
      { apply next_body_frame in Hb. rewrite Hb. reflexivity. }
      assert (Hfb : (S (fuel_bound it1) <= fuel_bound it)%nat).
      { unfold fuel_bound. rewrite Hte.
        assert ((tlv_end it - tlv_off it1 + 3) / 4 + 1
                <= (tlv_end it - tlv_off it + 3) / 4).
        { rewrite <- Z.div_add by lia. apply Z.div_le_mono; lia. }
        lia. }
      destruct (IH it1 Hnw1 ltac:(lia)) as (r & it2 & tr & Hl & Hlen).
      rewrite Hl. exists r, it2, (c :: tr). split; [reflexivity|].
      simpl. lia.
  - exists Exhausted, it, []. split; [reflexivity|simpl; lia].
Qed.

(** ** Initialization: the claims *)

(** C10: when [bootutil_tlv_iter_begin] returns an error, whatever the
    reason (a NULL argument, a failed read, a magic or protected-size
    mismatch), the iterator is left exactly as it was passed in: the stores
    to its fields come after the last check. *)
Theorem begin_failure_leaves_iterator swap it p_hdr p_fap ty pr r it' tr :
  bootutil_tlv_iter_begin swap it p_hdr p_fap ty pr = (r, it', tr) ->
  r <> BeginOk ->
  it' = it.
Proof.
  unfold bootutil_tlv_iter_begin.
  destruct it as [i|]; [|now intros [= <- <- <-]].
  destruct p_hdr as [h|]; [|now intros [= <- <- <-]].
  destruct p_fap as [f|]; [|now intros [= <- <- <-]].
  destruct (begin_checked swap i h f ty pr) as [[r0 i0] tr0] eqn:Hc.
  intros [= <- <- <-] Hr. f_equal.
  exact (begin_checked_err _ _ _ _ _ _ _ _ _ Hc Hr).
Qed.

Lemma begin_failure_leaves_iterator_witness :
  snd (fst (bootutil_tlv_iter_begin false (Some fresh_iter)
              (Some (hdr_at32 0)) (Some (flash_of_bytes (repeat x00 40)))
              1 false))
  = Some fresh_iter.
Proof.
  apply (begin_failure_leaves_iterator false (Some fresh_iter)
           (Some (hdr_at32 0)) (Some (flash_of_bytes (repeat x00 40)))
           1 false (BeginErr CorruptFormat) _ [32]).
  - reflexivity.
  - discriminate.
Defined.

(** C5: after a successful [bootutil_tlv_iter_begin], with [off_] the start
    of the TLV area: [prot_end = off_ + ih_protect_tlv_size],
    [tlv_end = prot_end + it_tlv_tot] of the plain info record (the record
    with the plain magic that was read at [prot_end]), and
    [tlv_off = off_ + sizeof(info)], all in [uint32_t] arithmetic; where the
    sums stay below 2^32 they are the sums of integers.  The header, the
    flash area, the filter and the flag are stored as passed. *)
Theorem begin_success_state swap it h f ty pr it' tr :
  bootutil_tlv_iter_begin swap (Some it) (Some h) (Some f) ty pr
    = (BeginOk, Some it', tr) ->
  let off_ := area_start swap it h in
  exists plain,
    load_info h f (prot_end it') = Some plain /\
    it_magic plain = IMAGE_TLV_INFO_MAGIC /\
    prot_end it' = add32 off_ (ih_protect_tlv_size h) /\
    tlv_end it' = add32 (prot_end it') (it_tlv_tot plain) /\
    tlv_off it' = add32 off_ sizeof_info /\
    (off_ + ih_protect_tlv_size h + it_tlv_tot plain < 2 ^ 32 ->
     prot_end it' = off_ + ih_protect_tlv_size h /\
     tlv_end it' = prot_end it' + it_tlv_tot plain) /\
    (off_ + sizeof_info < 2 ^ 32 -> tlv_off it' = off_ + sizeof_info) /\
    hdr it' = Some h /\ fap it' = Some f /\ type it' = ty /\ prot it' = pr.
Proof.
  intros H off_. apply begin_some_inv in H.
  destruct (begin_checked_ok _ _ _ _ _ _ _ _ H)
    as (plain & Hl & Hm & Hp & Hh & Hf & Ht & Hpr & Hpe & Hte & Hto & _).
  fold off_ in Hpe, Hto.
  pose proof (area_start_range swap it h) as Hoff. fold off_ in Hoff.
  pose proof (load_info_range _ _ _ _ Hl) as [_ Htot].
  unfold UINT16_MAX, sizeof_info in *.
  exists plain.
  split; [assumption|]. split; [assumption|]. split; [assumption|].
  split; [assumption|]. split; [assumption|].
  split; [|split; [|auto]].
  - intros Hlt. rewrite Hte, Hpe.
    rewrite (add32_small off_) by lia. rewrite add32_small by lia. auto.
  - intros Hlt. rewrite Hto. apply add32_small. lia.
Qed.

Lemma begin_success_state_witness :
  exists it',
    bootutil_tlv_iter_begin false (Some fresh_iter) (Some (hdr_at32 8))
      (Some (flash_of_bytes trailer_prot8)) IMAGE_TLV_ANY true
    = (BeginOk, Some it', [32; 40]) /\
    prot_end it' = 40 /\ tlv_end it' = 44 /\ tlv_off it' = 36.
Proof.
  eexists. split; [reflexivity|].
  destruct (begin_success_state false fresh_iter (hdr_at32 8)
              (flash_of_bytes trailer_prot8) IMAGE_TLV_ANY true _ _ eq_refl)
    as (plain & Hl & _ & Hpe & Hte & Hto & _).
  repeat split; reflexivity.
Defined.

(** C4 (amended): [bootutil_tlv_iter_begin] fails on a format check exactly
    when the arguments are non-NULL, the first info record is read, and
    either one of the three conditions on the first record holds
    ([corrupt_first]), or the first record is a protected-info record of the
    declared size and the second info record, read after the protected area,
    does not carry the plain-info magic ([corrupt_second]). *)
Theorem begin_corrupt_format_iff swap it p_hdr p_fap ty pr :
  fst (fst (bootutil_tlv_iter_begin swap it p_hdr p_fap ty pr))
    = BeginErr CorruptFormat <->
  exists i h f info,
    it = Some i /\ p_hdr = Some h /\ p_fap = Some f /\
    load_info h f (area_start swap i h) = Some info /\
    (corrupt_first h info \/ corrupt_second h f (area_start swap i h) info).
Proof.
  unfold bootutil_tlv_iter_begin.
  destruct it as [i|]; [|split; [discriminate|intros (?&?&?&?&?&_); discriminate]].
  destruct p_hdr as [h|];
    [|split; [discriminate|intros (?&?&?&?&?&?&_); discriminate]].
  destruct p_fap as [f|];
    [|split; [discriminate|intros (?&?&?&?&?&?&?&_); discriminate]].
  unfold begin_checked, begin_store.
  set (off_ := area_start swap i h).
  pose proof magic_distinct as Hmd.
  destruct (load_info h f off_) as [info|] eqn:H1; simpl.
  2:{ split; [discriminate|].
      intros (i' & h' & f' & info & [= <-] & [= <-] & [= <-] & Hl & _).
      fold off_ in Hl. congruence. }
  assert (Hinv : forall Q : Prop,
    (forall info', load_info h f off_ = Some info' ->
       corrupt_first h info' \/ corrupt_second h f off_ info' -> Q) ->
    (exists i' h' f' info',
        Some i = Some i' /\ Some h = Some h' /\ Some f = Some f' /\
        load_info h' f' (area_start swap i' h') = Some info' /\
        (corrupt_first h' info' \/
         corrupt_second h' f' (area_start swap i' h') info')) -> Q).
  { intros Q HQ (i' & h' & f' & info' & Ei & Eh & Ef & Hl & Hc).
    injection Ei as <-. injection Eh as <-. injection Ef as <-.
    eapply HQ; eauto. }
  assert (Hgive :
    corrupt_first h info \/ corrupt_second h f off_ info ->
    exists i' h' f' info',
        Some i = Some i' /\ Some h = Some h' /\ Some f = Some f' /\
        load_info h' f' (area_start swap i' h') = Some info' /\
        (corrupt_first h' info' \/
         corrupt_second h' f' (area_start swap i' h') info')).
  { intros Hc. exists i, h, f, info. auto. }
  unfold corrupt_first, corrupt_second in *.
  destruct (it_magic info =? IMAGE_TLV_PROT_INFO_MAGIC) eqn:Hm.
  - apply Z.eqb_eq in Hm.
    destruct (ih_protect_tlv_size h =? it_tlv_tot info) eqn:Hp; simpl.
    + apply Z.eqb_eq in Hp.
      destruct (load_info h f (add32 off_ (it_tlv_tot info)))
        as [info2|] eqn:H2; simpl.
      * destruct (it_magic info2 =? IMAGE_TLV_INFO_MAGIC) eqn:Hm2; simpl.
        -- apply Z.eqb_eq in Hm2. split; [discriminate|].
           apply Hinv. intros info' Hl HQ.
           rewrite H1 in Hl. injection Hl as <-.
           destruct HQ as [[[_ Hc]|[[Hc _]|[Hc Hc2]]]|(_ & _ & i2 & Hl2 & Hc)];
             congruence.
        -- apply Z.eqb_neq in Hm2. split; [intros _|reflexivity].
           apply Hgive. right. split; [assumption|]. split; [congruence|].
           exists info2. auto.
      * split; [discriminate|].
        apply Hinv. intros info' Hl HQ.
        rewrite H1 in Hl. injection Hl as <-.
        destruct HQ as [[[_ Hc]|[[Hc _]|[Hc Hc2]]]|(_ & _ & i2 & Hl2 & Hc)];
          congruence.
    + apply Z.eqb_neq in Hp. split; [intros _|reflexivity].
      apply Hgive. left. left. split; congruence.
  - apply Z.eqb_neq in Hm.
    destruct (ih_protect_tlv_size h =? 0) eqn:Hp; simpl.
    + apply Z.eqb_eq in Hp.
      destruct (it_magic info =? IMAGE_TLV_INFO_MAGIC) eqn:Hm2; simpl.
      * apply Z.eqb_eq in Hm2. split; [discriminate|].
        apply Hinv. intros info' Hl HQ.
        rewrite H1 in Hl. injection Hl as <-.
        destruct HQ as [[[Hc _]|[[_ Hc]|[Hc _]]]|(Hc & _)]; congruence.
      * apply Z.eqb_neq in Hm2. split; [intros _|reflexivity].
        apply Hgive. left. right. left. auto.
    + apply Z.eqb_neq in Hp. split; [intros _|reflexivity].
      apply Hgive. left.
      destruct (Z.eq_dec (it_magic info) IMAGE_TLV_INFO_MAGIC); auto.
Qed.

Lemma begin_corrupt_format_iff_witness :
  fst (fst (bootutil_tlv_iter_begin false (Some fresh_iter)
              (Some (hdr_at32 0)) (Some (flash_of_bytes (repeat x00 40)))
              1 false))
  = BeginErr CorruptFormat.
Proof.
  apply (proj2 (begin_corrupt_format_iff false (Some fresh_iter)
                  (Some (hdr_at32 0))
                  (Some (flash_of_bytes (repeat x00 40))) 1 false)).
  exists fresh_iter, (hdr_at32 0), (flash_of_bytes (repeat x00 40)),
         {| it_magic := 0; it_tlv_tot := 0 |}.
  split; [reflexivity|]. split; [reflexivity|]. split; [reflexivity|].
  split; [reflexivity|].
  left. right. left. split; discriminate.
Defined.

(** C4 as stated fails: with a protected-info record of the declared size
    followed by a second info record of unknown magic, initialization
    reports a corrupt trailer although none of the three conditions on the
    first record holds. *)
Lemma begin_corrupt_second_magic :
  let h := hdr_at32 8 in
  let f := flash_of_bytes trailer_bad_second in
  fst (fst (bootutil_tlv_iter_begin false (Some fresh_iter) (Some h) (Some f)
              IMAGE_TLV_ANY false)) = BeginErr CorruptFormat /\
  exists info,
    load_info h f (area_start false fresh_iter h) = Some info /\
    ~ corrupt_first h info.
Proof.
  intros h f. split; [reflexivity|].
  eexists. split; [reflexivity|].
  unfold corrupt_first. cbn.
  intros [[_ Hc]|[[Hc _]|[_ Hc]]]; [now apply Hc|now apply Hc|discriminate Hc].
Qed.

(** ** Scan advance: the claims *)

Lemma wrap32_ge z : z < 2 ^ 32 -> z <= wrap32 z.
Proof.
  intros Hz. destruct (Z_lt_le_dec z 0) as [Hneg|Hpos].
  - pose proof (wrap32_range z). lia.
  - rewrite wrap32_small; lia.
Qed.

(** A run of the loop that returns [Found]: the record read last. *)
Lemma next_loop_found h f tp fuel it off len ty it' tr :
  next_loop fuel h f it tp = Some (Found off len ty, it', tr) ->
  exists o t tr0,
    let c := skip_info h (set_tlv_off it o) in
    o < tlv_end it /\
    load_tlv h f c = Some t /\
    (prot it = false \/ c < prot_end it) /\
    (type it = IMAGE_TLV_ANY \/ it_type t = type it) /\
    off = add32 c sizeof_tlv /\ len = it_len t /\
    ty = (if tp then Some (it_type t) else None) /\
    it' = set_tlv_off it (add32 c (sizeof_tlv + it_len t)) /\
    tr = tr0 ++ [c].
Proof.
  intros H.
  refine (next_loop_elim h f tp
    (fun it res => forall off len ty it' tr,
       res = (Found off len ty, it', tr) ->
       exists o t tr0,
         let c := skip_info h (set_tlv_off it o) in
         o < tlv_end it /\
         load_tlv h f c = Some t /\
         (prot it = false \/ c < prot_end it) /\
         (type it = IMAGE_TLV_ANY \/ it_type t = type it) /\
         off = add32 c sizeof_tlv /\ len = it_len t /\
         ty = (if tp then Some (it_type t) else None) /\
         it' = set_tlv_off it (add32 c (sizeof_tlv + it_len t)) /\
         tr = tr0 ++ [c])
    _ _ _ fuel it _ H off len ty it' tr eq_refl); clear.
  - intros it _ off len ty it' tr E. discriminate E.
  - intros it r it1 c Hlt Hb off len ty it' tr E.
    apply triple_inj in E. destruct E as (-> & <- & <-).
    body_cases Hb Ho. injection Ho as <- <- <-.
    exists (tlv_off it), t, []. rewrite set_tlv_off_same.
    repeat (split; [solve [auto]|]). reflexivity.
  - intros it it1 c r it2 tr0 Hlt Hb IH off len ty it' tr E.
    apply triple_inj in E. destruct E as (-> & -> & <-).
    destruct (IH _ _ _ _ _ eq_refl) as (o & t & tr1 & IH'). cbv zeta in IH'.
    apply next_body_frame in Hb. rewrite Hb in IH'.
    rewrite !set_tlv_off_set in IH'. cbn [tlv_end prot type prot_end set_tlv_off] in IH'.
    destruct IH' as (Ho & Hl & Hp & Hm & Hoff & Hlen & Hty & Hit & Htr).
    exists o, t, (c :: tr1). cbv zeta.
    repeat (split; [solve [auto]|]). rewrite Htr. reflexivity.
Qed.

Lemma next_some_inv fuel it tp r it' tr :
  bootutil_tlv_iter_next fuel (Some it) tp = Some (r, Some it', tr) ->
  (initialized it = false /\ r = Error InvalidState /\ it' = it /\ tr = []) \/
  (exists h f, hdr it = Some h /\ fap it = Some f /\
               next_loop fuel h f it tp = Some (r, it', tr)).
Proof.
  unfold bootutil_tlv_iter_next, initialized.
  destruct (hdr it) as [h|]; [destruct (fap it) as [f|]|].
  - destruct (next_loop fuel h f it tp) as [[[r0 i0] tr0]|] eqn:Hl;
      [|discriminate].
    intros E. right. exists h, f. split; [reflexivity|].
    split; [reflexivity|]. congruence.
  - intros E. left. split; [reflexivity|].
    repeat split; congruence.
  - intros E. left. split; [reflexivity|].
    repeat split; congruence.
Qed.

Lemma next_found_inv h f it tp fuel off len ty it' tr :
  hdr it = Some h -> fap it = Some f ->
  bootutil_tlv_iter_next fuel (Some it) tp
    = Some (Found off len ty, Some it', tr) ->
  next_loop fuel h f it tp = Some (Found off len ty, it', tr).
Proof.
  intros Hh Hf H.
  destruct (next_some_inv _ _ _ _ _ _ H)
    as [(_ & Hr & _)|(h' & f' & Hh' & Hf' & Hl)]; [discriminate|].
  congruence.
Qed.

(** C3: when the record header at the cursor is read, the protected-only
    stop does not apply, and the filter is the wildcard or equals the
    record's type, [bootutil_tlv_iter_next] returns [Found] with payload
    offset [cursor + sizeof(tlv)], the header's length and type (the type is
    stored only through a non-NULL pointer), after one read, and leaves the
    cursor at [cursor + sizeof(tlv) + it_len], sums in [uint32_t].  The
    cursor is the one of the read, past the plain info record at the
    boundary.  Conversely every [Found] result, after any number of skipped
    records, has this form for the record read last. *)
Theorem next_found_record h f it tp :
  hdr it = Some h -> fap it = Some f ->
  (forall t fuel,
     tlv_off it < tlv_end it ->
     load_tlv h f (skip_info h it) = Some t ->
     (prot it = false \/ skip_info h it < prot_end it) ->
     (type it = IMAGE_TLV_ANY \/ it_type t = type it) ->
     bootutil_tlv_iter_next (S fuel) (Some it) tp =
     Some (Found (add32 (skip_info h it) sizeof_tlv) (it_len t)
                 (if tp then Some (it_type t) else None),
           Some (set_tlv_off it
                   (add32 (skip_info h it) (sizeof_tlv + it_len t))),
           [skip_info h it])) /\
  (forall fuel off len ty it' tr,
     bootutil_tlv_iter_next fuel (Some it) tp
       = Some (Found off len ty, Some it', tr) ->
     exists o t tr0,
       let c := skip_info h (set_tlv_off it o) in
       o < tlv_end it /\
       load_tlv h f c = Some t /\
       (prot it = false \/ c < prot_end it) /\
       (type it = IMAGE_TLV_ANY \/ it_type t = type it) /\
       off = add32 c sizeof_tlv /\ len = it_len t /\
       ty = (if tp then Some (it_type t) else None) /\
       it' = set_tlv_off it (add32 c (sizeof_tlv + it_len t)) /\
       tr = tr0 ++ [c]).
Proof.
  intros Hh Hf. split.
  - intros t fuel Hlt Hl Hp Hm.
    rewrite (next_initialized _ _ _ _ _ Hh Hf). simpl.
    apply Z.ltb_lt in Hlt. rewrite Hlt. simpl.
    unfold next_body. rewrite Hl.
    assert (Hstop : prot it && (prot_end it <=? skip_info h it) = false).
    { apply andb_false_iff. destruct Hp as [Hp|Hp]; [now left|right].
      now apply Z.leb_gt. }
    assert (Hmatch : (type it =? IMAGE_TLV_ANY) || (it_type t =? type it) = true).
    { apply orb_true_iff. destruct Hm as [Hm|Hm]; [left|right]; now apply Z.eqb_eq. }
    rewrite Hstop, Hmatch. reflexivity.
  - intros fuel off len ty it' tr H.
    apply (next_found_inv _ _ _ _ _ _ _ _ _ _ Hh Hf) in H.
    exact (next_loop_found _ _ _ _ _ _ _ _ _ _ H).
Qed.

Lemma next_found_record_witness :
  bootutil_tlv_iter_begin false (Some fresh_iter) (Some (hdr_at32 0))
    (Some (flash_of_bytes trailer_plain12)) 1 false
  = (BeginOk, Some plain12_it, [32]) /\
  bootutil_tlv_iter_next 1 (Some plain12_it) true
  = Some (Found 40 4 (Some 1), Some (set_tlv_off plain12_it 44), [36]) /\
  bootutil_tlv_iter_next 0 (Some (set_tlv_off plain12_it 44)) true
  = Some (Exhausted, Some (set_tlv_off plain12_it 44), []).
Proof.
  split; [reflexivity|]. split; [|reflexivity].
  refine (proj1 (next_found_record (hdr_at32 0)
                   (flash_of_bytes trailer_plain12) plain12_it true
                   eq_refl eq_refl)
            {| it_type := 1; it_len := 4 |} 0%nat _ _ _ _).
  - reflexivity.
  - reflexivity.
  - left. reflexivity.
  - right. reflexivity.
Defined.

(** With the protected flag set, the header of every record returned lies
    below [prot_end]; the payload offset returned is four bytes further. *)
Lemma next_prot_found_header h f it tp fuel off len ty it' tr :
  hdr it = Some h -> fap it = Some f -> prot it = true ->
  bootutil_tlv_iter_next fuel (Some it) tp
    = Some (Found off len ty, Some it', tr) ->
  exists c, c < prot_end it /\ off = add32 c sizeof_tlv /\
            prot_end it' = prot_end it.
Proof.
  intros Hh Hf Hp H.
  apply (next_found_inv _ _ _ _ _ _ _ _ _ _ Hh Hf) in H.
  destruct (next_loop_found _ _ _ _ _ _ _ _ _ _ H)
    as (o & t & tr0 & Hc). cbv zeta in Hc.
  destruct Hc as (_ & _ & Hin & _ & Hoff & _ & _ & Hit & _).
  destruct Hin as [Hin|Hin]; [congruence|].
  eexists. split; [exact Hin|]. split; [exact Hoff|].
  rewrite Hit. reflexivity.
Qed.

(** C1, at the failing input: the header declares a protected area of 8
    bytes and the trailer is protected-info(8), TLV(type 2, len 0),
    plain-info(4).  With the wildcard filter and the protected flag,
    [bootutil_tlv_iter_next] returns [Found] for the record of type 2 with
    payload offset 40, which is [prot_end]; [bootutil_tlv_iter_is_prot] on
    that offset returns 0, not 1. *)
Theorem prot_zero_length_record_not_is_prot :
  let it := prot8_it trailer_prot8 4 in
  bootutil_tlv_iter_begin false (Some fresh_iter) (Some (hdr_at32 8))
    (Some (flash_of_bytes trailer_prot8)) IMAGE_TLV_ANY true
  = (BeginOk, Some it, [32; 40]) /\
  bootutil_tlv_iter_next 1 (Some it) true
  = Some (Found 40 0 (Some 2), Some (set_tlv_off it 40), [36]) /\
  bootutil_tlv_iter_is_prot (Some (set_tlv_off it 40)) 40
  = (0, Some (set_tlv_off it 40), []).
Proof. repeat split. Qed.

(** C2 (amended): with the protected flag set and the cursor at or past
    [prot_end], [bootutil_tlv_iter_next] never returns [Found].  When the
    cursor is at or past [tlv_end] it returns [Exhausted] without a read.
    Otherwise it makes exactly one read of a record header, at the cursor
    or, when the cursor is at the boundary of a non-empty protected area,
    four bytes further, leaves the cursor at the offset read, and returns
    [Exhausted] when the read succeeds and the read failure when it fails.
    The cursor is taken four bytes or more below 2^32, so that the step
    over the info record does not wrap. *)
Theorem next_prot_past_end h f it tp fuel :
  hdr it = Some h -> fap it = Some f -> prot it = true ->
  prot_end it <= tlv_off it ->
  tlv_off it + sizeof_info < 2 ^ 32 ->
  bootutil_tlv_iter_next (S fuel) (Some it) tp =
  if tlv_off it <? tlv_end it then
    match load_tlv h f (skip_info h it) with
    | Some _ =>
      Some (Exhausted, Some (set_tlv_off it (skip_info h it)),
            [skip_info h it])
    | None =>
      Some (Error ReadFailure, Some (set_tlv_off it (skip_info h it)),
            [skip_info h it])
    end
  else Some (Exhausted, Some it, []).
Proof.
  intros Hh Hf Hp Hle Hw.
  rewrite (next_initialized _ _ _ _ _ Hh Hf). simpl.
  destruct (tlv_off it <? tlv_end it) eqn:Hlt; simpl; [|reflexivity].
  unfold next_body.
  destruct (load_tlv h f (skip_info h it)) as [t|]; [|reflexivity].
  assert (Hc : prot_end it <= skip_info h it).
  { destruct (skip_info_cases h it) as [->|(_ & _ & ->)]; [assumption|].
    pose proof (wrap32_ge (tlv_off it + sizeof_info) Hw).
    unfold add32, sizeof_info in *. lia. }
  apply Z.leb_le in Hc. rewrite Hp, Hc. reflexivity.
Qed.

Lemma next_prot_past_end_witness :
  let it := set_tlv_off (prot8_it trailer_prot8 4) 40 in
  bootutil_tlv_iter_next 1 (Some it) true
  = Some (Exhausted, Some (set_tlv_off it 44), [44]).
Proof.
  intros it.
  exact (next_prot_past_end (hdr_at32 8) (flash_of_bytes trailer_prot8) it
           true 0 eq_refl eq_refl eq_refl
           ltac:(vm_compute; discriminate) ltac:(reflexivity)).
Defined.

(** C2 as stated fails: in a trailer with one record in either area, the
    second call finds the cursor at [prot_end], reads the header of the
    record of the general area at offset 44, and then returns
    [Exhausted]. *)
Lemma next_prot_reads_general_record :
  let f := flash_of_bytes trailer_prot8_general in
  let it := set_tlv_off (prot8_it trailer_prot8_general 12) 40 in
  bootutil_tlv_iter_begin false (Some fresh_iter) (Some (hdr_at32 8))
    (Some f) IMAGE_TLV_ANY true
  = (BeginOk, Some (prot8_it trailer_prot8_general 12), [32; 40]) /\
  bootutil_tlv_iter_next 1 (Some (prot8_it trailer_prot8_general 12)) true
  = Some (Found 40 0 (Some 2), Some it, [36]) /\
  prot it = true /\ prot_end it <= tlv_off it /\
  bootutil_tlv_iter_next 1 (Some it) true
  = Some (Exhausted, Some (set_tlv_off it 44), [44]) /\
  prot_end it + sizeof_info = 44 /\
  load_tlv (hdr_at32 8) f 44 = Some {| it_type := 1; it_len := 4 |}.
Proof.
  repeat split. vm_compute. discriminate.
Qed.

(** Where the step over the info record wraps, the protected-only stop does
    not apply: the cursor lands at offset 0 and the record there is
    returned. *)
Lemma next_prot_wrap_found :
  prot prot_top_it = true /\ prot_end prot_top_it <= tlv_off prot_top_it /\
  bootutil_tlv_iter_next 1 (Some prot_top_it) true
  = Some (Found 4 0 (Some 1), Some (set_tlv_off prot_top_it 4), [0]).
Proof. repeat split. vm_compute. discriminate. Qed.

(** ** Membership query *)

(** C9: on an initialized iterator [bootutil_tlv_iter_is_prot] returns 1
    when the offset is below [prot_end] and 0 otherwise, makes no read and
    leaves the iterator as it is, so its result is a function of
    [prot_end] and the offset alone; on a NULL iterator, or one whose
    header or flash area is NULL, it returns -1. *)
Theorem is_prot_spec (it : option image_tlv_iter) (off : Z) :
  (forall i, it = Some i -> initialized i = true ->
     exists b : bool,
       bootutil_tlv_iter_is_prot it off = (Z.b2z b, it, []) /\
       (b = true <-> off < prot_end i)) /\
  ((it = None \/ exists i, it = Some i /\ (hdr i = None \/ fap i = None)) ->
   bootutil_tlv_iter_is_prot it off = (-1, it, [])).
Proof.
  split.
  - intros i -> Hi. unfold initialized in Hi. unfold bootutil_tlv_iter_is_prot.
    destruct (hdr i); [|discriminate]. destruct (fap i); [|discriminate].
    exists (off <? prot_end i). split.
    + destruct (off <? prot_end i); reflexivity.
    + apply Z.ltb_lt.
  - intros [->|(i & -> & [Hn|Hn])]; unfold bootutil_tlv_iter_is_prot;
      [reflexivity| |]; rewrite Hn; [reflexivity|].
    destruct (hdr i); reflexivity.
Qed.

Lemma is_prot_spec_witness :
  bootutil_tlv_iter_is_prot (Some plain12_it) 31 = (1, Some plain12_it, []) /\
  bootutil_tlv_iter_is_prot (Some plain12_it) 32 = (0, Some plain12_it, []) /\
  bootutil_tlv_iter_is_prot (Some fresh_iter) 0 = (-1, Some fresh_iter, []).
Proof.
  split; [|split].
  - destruct (proj1 (is_prot_spec (Some plain12_it) 31) plain12_it
                eq_refl eq_refl) as (b & Hb & _).
    reflexivity.
  - destruct (proj1 (is_prot_spec (Some plain12_it) 32) plain12_it
                eq_refl eq_refl) as (b & Hb & _).
    reflexivity.
  - apply (proj2 (is_prot_spec (Some fresh_iter) 0)).
    right. exists fresh_iter. split; [reflexivity|]. left. reflexivity.
Defined.

(** ** Sequences of calls *)

Lemma next_frame fuel it tp r it' tr :
  bootutil_tlv_iter_next fuel (Some it) tp = Some (r, Some it', tr) ->
  it' = set_tlv_off it (tlv_off it').
Proof.
  intros H.
  destruct (next_some_inv _ _ _ _ _ _ H)
    as [(_ & _ & -> & _)|(h & f & _ & _ & Hl)].
  - now rewrite set_tlv_off_same.
  - exact (next_loop_frame _ _ _ _ _ _ _ _ Hl).
Qed.

Lemma next_no_wrap fuel it tp r it' tr :
  no_wrap it ->
  bootutil_tlv_iter_next fuel (Some it) tp = Some (r, Some it', tr) ->
  tlv_off it <= tlv_off it' /\ no_wrap it' /\
  (forall off len ty, r = Found off len ty ->
     tlv_off it + sizeof_tlv <= off /\ off + len = tlv_off it' /\ 0 <= len).
Proof.
  intros Hnw H.
  destruct (next_some_inv _ _ _ _ _ _ H)
    as [(_ & -> & -> & _)|(h & f & _ & _ & Hl)].
  - split; [lia|]. split; [assumption|]. discriminate.
  - exact (next_loop_no_wrap _ _ _ _ _ _ _ _ Hnw Hl).
Qed.

Lemma advances_trans it1 it2 it3 :
  advances it1 it2 -> advances it2 it3 -> advances it1 it3.
Proof.
  induction 1 as [|it fuel tp r ita tr itb Hn _ IH]; auto.
  intros H3. eapply advances_next; eauto.
Qed.

Lemma advances_frame it it' :
  advances it it' -> it' = set_tlv_off it (tlv_off it').
Proof.
  induction 1 as [it|it fuel tp r it1 tr it2 Hn _ IH].
  - now rewrite set_tlv_off_same.
  - apply next_frame in Hn. rewrite IH, Hn at 1. reflexivity.
Qed.

Lemma advances_no_wrap it it' :
  no_wrap it -> advances it it' -> tlv_off it <= tlv_off it' /\ no_wrap it'.
Proof.
  intros Hnw H. induction H as [it|it fuel tp r it1 tr it2 Hn _ IH].
  - split; [lia|assumption].
  - destruct (next_no_wrap _ _ _ _ _ _ Hnw Hn) as (Hle & Hnw1 & _).
    destruct (IH Hnw1) as [Hle2 Hnw2]. split; [lia|assumption].
Qed.

(** A start offset that fits leaves room for the whole scan. *)
Lemma begin_no_wrap swap it h f ty pr it0 tr :
  bootutil_tlv_iter_begin swap (Some it) (Some h) (Some f) ty pr
    = (BeginOk, Some it0, tr) ->
  area_fits (area_start swap it h) ->
  no_wrap it0 /\ prot_end it0 <= tlv_end it0.
Proof.
  intros H Hfit. apply begin_some_inv in H.
  destruct (begin_checked_ok _ _ _ _ _ _ _ _ H)
    as (plain & Hl & _ & Hp & _ & _ & _ & _ & Hpe & Hte & Hto & _).
  pose proof (area_start_range swap it h) as Hoff.
  pose proof (load_info_range _ _ _ _ Hl) as [_ Htot].
  unfold area_fits in Hfit. unfold_consts.
  rewrite add32_small in Hpe by (change (2 ^ 32) with 4294967296; lia).
  rewrite Hpe in Hte.
  rewrite add32_small in Hte by (change (2 ^ 32) with 4294967296; lia).
  rewrite add32_small in Hto by (change (2 ^ 32) with 4294967296; lia).
  lia.
Qed.

(** On a bounds-checked region that ends far enough below 2^32, every
    trailer that [bootutil_tlv_iter_begin] accepts fits. *)
Lemma flash_of_bytes_bounds_checked data :
  bounds_checked (flash_of_bytes data) (Z.of_nat (length data)).
Proof.
  intros off len Hlt. simpl.
  destruct (0 <=? off); simpl; [|reflexivity].
  destruct (off + Z.of_nat len <=? Z.of_nat (length data)) eqn:Hle;
    [|reflexivity].
  apply Z.leb_le in Hle. lia.
Qed.

Lemma bounded_region_fits swap it h f ty pr it0 tr size :
  bounds_checked f size ->
  size + UINT16_MAX + UINT16_MAX + MAX_STEP <= 2 ^ 32 ->
  bootutil_tlv_iter_begin swap (Some it) (Some h) (Some f) ty pr
    = (BeginOk, Some it0, tr) ->
  area_fits (area_start swap it h).
Proof.
  intros Hbc Hsize H. apply begin_some_inv in H.
  unfold begin_checked in H.
  destruct (load_info h f (area_start swap it h)) as [info|] eqn:Hl;
    [|discriminate].
  unfold load_info, LOAD_IMAGE_DATA in Hl.
  destruct (Z_lt_le_dec size (area_start swap it h + Z.of_nat (Z.to_nat sizeof_info)))
    as [Hout|Hin].
  - rewrite (Hbc _ _ Hout) in Hl. discriminate.
  - unfold area_fits. unfold_consts. simpl in Hin. lia.
Qed.

(** An error return of the loop is a failed read, and the cursor is left at
    the offset of that read. *)
Lemma next_loop_error h f tp fuel it e it' tr :
  next_loop fuel h f it tp = Some (Error e, it', tr) ->
  e = ReadFailure /\ load_tlv h f (tlv_off it') = None /\
  exists tr0, tr = tr0 ++ [tlv_off it'].
Proof.
  intros H.
  refine (next_loop_elim h f tp
    (fun it res => forall e it' tr, res = (Error e, it', tr) ->
       e = ReadFailure /\ load_tlv h f (tlv_off it') = None /\
       exists tr0, tr = tr0 ++ [tlv_off it'])
    _ _ _ fuel it _ H e it' tr eq_refl); clear.
  - intros it _ e it' tr E. discriminate E.
  - intros it r it1 c Hlt Hb e it' tr E.
    apply triple_inj in E. destruct E as (-> & <- & <-).
    body_cases Hb Ho. injection Ho as <-.
    split; [reflexivity|]. split; [assumption|]. now exists [].
  - intros it it1 c r it2 tr0 Hlt Hb IH e it' tr E.
    apply triple_inj in E. destruct E as (-> & <- & <-).
    destruct (IH _ _ _ eq_refl) as (He & Hl & tr1 & ->).
    split; [assumption|]. split; [assumption|]. now exists (c :: tr1).
Qed.

(** C6 (amended): for an iterator produced by a successful
    [bootutil_tlv_iter_begin] whose area start fits ([area_fits]: no sum of
    the scan reaches 2^32), [prot_end <= tlv_end] holds; every sequence of
    calls of [bootutil_tlv_iter_next] leaves [prot_end] and [tlv_end] as
    they are, [bootutil_tlv_iter_is_prot] leaves the iterator as it is, and
    the cursor never decreases from one state of the sequence to a later
    one.  An error return is a read failure and leaves the cursor at the
    offset whose read failed, at or after the cursor of the call. *)
Theorem begin_invariant_monotone swap it h f ty pr it0 tr :
  bootutil_tlv_iter_begin swap (Some it) (Some h) (Some f) ty pr
    = (BeginOk, Some it0, tr) ->
  area_fits (area_start swap it h) ->
  prot_end it0 <= tlv_end it0 /\
  forall it1, advances it0 it1 ->
    (prot_end it1 = prot_end it0 /\ tlv_end it1 = tlv_end it0 /\
     prot_end it1 <= tlv_end it1) /\
    (forall off,
       snd (fst (bootutil_tlv_iter_is_prot (Some it1) off)) = Some it1) /\
    (forall it2, advances it1 it2 -> tlv_off it1 <= tlv_off it2) /\
    (forall fuel tp e it2 tr',
       bootutil_tlv_iter_next fuel (Some it1) tp
         = Some (Error e, Some it2, tr') ->
       tlv_off it1 <= tlv_off it2 /\ e = ReadFailure /\
       exists tr0, tr' = tr0 ++ [tlv_off it2]).
Proof.
  intros H Hfit.
  destruct (begin_no_wrap _ _ _ _ _ _ _ _ H Hfit) as [Hnw Hinv].
  split; [assumption|]. intros it1 Hadv.
  pose proof (advances_frame _ _ Hadv) as Hfr.
  destruct (advances_no_wrap _ _ Hnw Hadv) as [_ Hnw1].
  assert (Hpe : prot_end it1 = prot_end it0) by (rewrite Hfr; reflexivity).
  assert (Hte : tlv_end it1 = tlv_end it0) by (rewrite Hfr; reflexivity).
  split; [repeat split; lia|].
  split.
  { intros off. unfold bootutil_tlv_iter_is_prot.
    destruct (hdr it1), (fap it1); reflexivity. }
  split.
  { intros it2 Hadv2. apply (advances_no_wrap _ _ Hnw1 Hadv2). }
  intros fuel tp e it2 tr' Hn.
  destruct (next_no_wrap _ _ _ _ _ _ Hnw1 Hn) as (Hle & _ & _).
  split; [assumption|].
  destruct (next_some_inv _ _ _ _ _ _ Hn)
    as [(Hi & _)|(h1 & f1 & _ & _ & Hl)].
  - apply begin_some_inv in H.
    destruct (begin_checked_ok _ _ _ _ _ _ _ _ H)
      as (_ & _ & _ & _ & Hh & Hf & _).
    unfold initialized in Hi. rewrite Hfr in Hi. cbn [hdr fap set_tlv_off] in Hi.
    rewrite Hh, Hf in Hi. discriminate.
  - destruct (next_loop_error _ _ _ _ _ _ _ _ Hl) as (He & _ & Htr).
    split; assumption.
Qed.

Lemma begin_invariant_monotone_witness :
  let it0 := prot8_it trailer_prot8_general 12 in
  prot_end it0 <= tlv_end it0 /\
  tlv_off it0 <= tlv_off (set_tlv_off it0 40).
Proof.
  intros it0.
  assert (Hb : bootutil_tlv_iter_begin false (Some fresh_iter)
                 (Some (hdr_at32 8))
                 (Some (flash_of_bytes trailer_prot8_general))
                 IMAGE_TLV_ANY true = (BeginOk, Some it0, [32; 40]))
    by reflexivity.
  assert (Hfit : area_fits (area_start false fresh_iter (hdr_at32 8)))
    by reflexivity.
  destruct (begin_invariant_monotone _ _ _ _ _ _ _ _ Hb Hfit) as [Hinv Hall].
  split; [exact Hinv|].
  destruct (Hall it0 (advances_refl it0)) as (_ & _ & Hmono & _).
  apply Hmono.
  apply (advances_next it0 1 true (Found 40 0 (Some 2))
           (set_tlv_off it0 40) [36]); [reflexivity|apply advances_refl].
Defined.

(** C6 as stated fails where the sums wrap.  A trailer that starts 16 bytes
    below 2^32 with plain-info(32) is accepted with [tlv_end = 16], below
    [prot_end]; and a record that ends at 2^32 sends the cursor from
    2^32 - 12 back to 0. *)
Lemma begin_wrap_breaks_invariant :
  (exists it0,
     bootutil_tlv_iter_begin false (Some fresh_iter) (Some hdr_top)
       (Some flash_top) IMAGE_TLV_ANY false
     = (BeginOk, Some it0, [4294967280]) /\
     tlv_end it0 < prot_end it0) /\
  bootutil_tlv_iter_begin false (Some fresh_iter) (Some hdr_top)
    (Some flash_wrap) IMAGE_TLV_ANY false
  = (BeginOk, Some wrap_it, [4294967280]) /\
  (exists r tr,
     bootutil_tlv_iter_next 1 (Some wrap_it) true
     = Some (r, Some (set_tlv_off wrap_it 0), tr) /\
     tlv_off (set_tlv_off wrap_it 0) < tlv_off wrap_it).
Proof.
  split; [|split].
  - eexists. split; reflexivity.
  - reflexivity.
  - eexists. eexists. split; reflexivity.
Qed.

(** C7 (amended): the result of a call does not depend on the fuel, so a
    state and a filter determine one sequence of results; and for an
    iterator produced by a successful [bootutil_tlv_iter_begin] whose area
    start fits ([area_fits]), the payload offset of a [Found] result is
    strictly below the payload offset of every later [Found] result of the
    same sequence of calls. *)
Theorem next_offsets_increasing swap it h f ty pr it0 tr :
  bootutil_tlv_iter_begin swap (Some it) (Some h) (Some f) ty pr
    = (BeginOk, Some it0, tr) ->
  area_fits (area_start swap it h) ->
  (forall it1 tp fuel fuel' x y,
     advances it0 it1 ->
     bootutil_tlv_iter_next fuel (Some it1) tp = Some x ->
     bootutil_tlv_iter_next fuel' (Some it1) tp = Some y ->
     x = y) /\
  (forall it1 it1' it2 it2' fuel1 fuel2 tp1 tp2 o1 l1 t1 tr1 o2 l2 t2 tr2,
     advances it0 it1 ->
     bootutil_tlv_iter_next fuel1 (Some it1) tp1
       = Some (Found o1 l1 t1, Some it1', tr1) ->
     advances it1' it2 ->
     bootutil_tlv_iter_next fuel2 (Some it2) tp2
       = Some (Found o2 l2 t2, Some it2', tr2) ->
     o1 < o2).
Proof.
  intros H Hfit.
  destruct (begin_no_wrap _ _ _ _ _ _ _ _ H Hfit) as [Hnw _].
  split.
  - intros it1 tp fuel fuel' x y _ Hx Hy.
    unfold bootutil_tlv_iter_next in Hx, Hy.
    destruct (hdr it1) as [h1|]; [|congruence].
    destruct (fap it1) as [f1|]; [|congruence].
    destruct (next_loop fuel h1 f1 it1 tp) as [x'|] eqn:Hlx; [|discriminate].
    destruct (next_loop fuel' h1 f1 it1 tp) as [y'|] eqn:Hly; [|discriminate].
    rewrite (next_loop_deterministic _ _ _ _ _ _ _ _ Hlx Hly) in Hx.
    congruence.
  - intros it1 it1' it2 it2' fuel1 fuel2 tp1 tp2 o1 l1 t1 tr1 o2 l2 t2 tr2
           Ha1 Hn1 Ha2 Hn2.
    destruct (advances_no_wrap _ _ Hnw Ha1) as [_ Hnw1].
    destruct (next_no_wrap _ _ _ _ _ _ Hnw1 Hn1) as (_ & Hnw1' & Hf1).
    destruct (Hf1 _ _ _ eq_refl) as (_ & He1 & Hl1).
    destruct (advances_no_wrap _ _ Hnw1' Ha2) as [Hle Hnw2].
    destruct (next_no_wrap _ _ _ _ _ _ Hnw2 Hn2) as (_ & _ & Hf2).
    destruct (Hf2 _ _ _ eq_refl) as (Hs2 & _ & _).
    unfold sizeof_tlv in *. lia.
Qed.

Lemma next_offsets_increasing_witness :
  let it0 := any8_it trailer_prot8_general 12 in
  bootutil_tlv_iter_next 1 (Some it0) true
  = Some (Found 40 0 (Some 2), Some (set_tlv_off it0 40), [36]) /\
  bootutil_tlv_iter_next 1 (Some (set_tlv_off it0 40)) true
  = Some (Found 48 4 (Some 1), Some (set_tlv_off it0 52), [44]) /\
  40 < 48.
Proof.
  intros it0.
  assert (Hb : bootutil_tlv_iter_begin false (Some fresh_iter)
                 (Some (hdr_at32 8))
                 (Some (flash_of_bytes trailer_prot8_general))
                 IMAGE_TLV_ANY false
               = (BeginOk, Some it0, [32; 40]))
    by reflexivity.
  assert (Hfit : area_fits (area_start false fresh_iter (hdr_at32 8)))
    by reflexivity.
  assert (H1 : bootutil_tlv_iter_next 1 (Some it0) true
               = Some (Found 40 0 (Some 2), Some (set_tlv_off it0 40), [36]))
    by reflexivity.
  assert (H2 : bootutil_tlv_iter_next 1 (Some (set_tlv_off it0 40)) true
               = Some (Found 48 4 (Some 1), Some (set_tlv_off it0 52), [44]))
    by reflexivity.
  split; [exact H1|]. split; [exact H2|].
  destruct (next_offsets_increasing _ _ _ _ _ _ _ _ Hb Hfit) as [_ Hinc].
  exact (Hinc _ _ _ _ _ _ _ _ _ _ _ _ _ _ _ _
              (advances_refl it0) H1 (advances_refl _) H2).
Defined.

(** C7 as stated fails where the cursor wraps: the record that ends at 2^32
    is returned with payload offset 2^32 - 8, the next one, at offset 0,
    with payload offset 4. *)
Lemma next_wrap_offsets_decrease :
  bootutil_tlv_iter_begin false (Some fresh_iter) (Some hdr_top)
    (Some flash_wrap) IMAGE_TLV_ANY false
  = (BeginOk, Some wrap_it, [4294967280]) /\
  bootutil_tlv_iter_next 1 (Some wrap_it) true
  = Some (Found 4294967288 8 (Some 1), Some (set_tlv_off wrap_it 0),
          [4294967284]) /\
  bootutil_tlv_iter_next 1 (Some (set_tlv_off wrap_it 0)) true
  = Some (Found 4 0 (Some 1), Some (set_tlv_off wrap_it 4), [0]) /\
  4 < 4294967288.
Proof. repeat split. Qed.

(** ** Termination *)

(** C8 (amended): on an iterator whose [tlv_end] is more than
    [MAX_STEP] below 2^32 ([no_wrap]: no sum of the scan wraps), whatever
    the storage returns, a call of [bootutil_tlv_iter_next] returns
    [Found], [Exhausted] or an error after at most
    [(tlv_end - tlv_off + 3) / 4] reads, one for each iteration. *)
Theorem next_terminates it tp :
  no_wrap it ->
  exists r it' tr,
    (length tr <= fuel_bound it)%nat /\
    forall fuel, (fuel_bound it <= fuel)%nat ->
      bootutil_tlv_iter_next fuel (Some it) tp = Some (r, Some it', tr).
Proof.
  intros Hnw. unfold bootutil_tlv_iter_next.
  destruct (hdr it) as [h|].
  2:{ exists (Error InvalidState), it, []. split; [simpl; lia|reflexivity]. }
  destruct (fap it) as [f|].
  2:{ exists (Error InvalidState), it, []. split; [simpl; lia|reflexivity]. }
  destruct (next_loop_terminates h f tp (fuel_bound it) it Hnw (le_n _))
    as (r & it' & tr & Hl & Hlen).
  exists r, it', tr. split; [assumption|].
  intros fuel Hfuel.
  rewrite (next_loop_fuel_mono _ _ _ _ _ _ _ Hfuel Hl). reflexivity.
Qed.

Lemma next_terminates_witness :
  exists r it' tr,
    (length tr <= 2)%nat /\
    bootutil_tlv_iter_next 2 (Some plain12_it) true = Some (r, Some it', tr).
Proof.
  destruct (next_terminates plain12_it true
              ltac:(split; [vm_compute; discriminate|reflexivity]))
    as (r & it' & tr & Hlen & Hrun).
  exists r, it', tr. split; [exact Hlen|].
  exact (Hrun 2%nat (le_n 2)).
Defined.

(** The region [flash_cycle] holds a record that does not match at every
    offset that the cursor visits. *)
Lemma cycle_body o :
  on_cycle o ->
  exists o', on_cycle o' /\
    next_body hdr_top flash_cycle (set_tlv_off cycle_it o) false
    = (Continue, set_tlv_off cycle_it o', o).
Proof.
  intros [->|[Hr Hm]].
  - exists 0. split; [right; split; [lia|reflexivity]|reflexivity].
  - destruct (Z.eq_dec o 4294967276) as [->|Hne].
    + exists 4294967284. split; [left; reflexivity|reflexivity].
    + assert (Hlt : o <= 4294967272).
      { assert (o mod 4 = 0 -> o <> 4294967273 /\ o <> 4294967274 /\
                o <> 4294967275) by (intros Hx; repeat split; intros ->; discriminate Hx).
        lia. }
      exists (o + 4). split.
      * right. split; [lia|].
        rewrite <- (Z.mul_1_l 4) at 1. rewrite Z.mod_add by lia. assumption.
      * unfold next_body, skip_info, load_tlv, LOAD_IMAGE_DATA, flash_cycle.
        cbn [hdr_top ih_protect_tlv_size flash_area_read set_tlv_off tlv_off
             prot_end cycle_it prot type Z.ltb Z.compare andb].
        rewrite (proj2 (Z.eqb_neq o 4294967280)) by lia.
        rewrite (proj2 (Z.eqb_neq o 4294967284)) by lia.
        rewrite (proj2 (Z.eqb_neq o 4294967276)) by lia.
        cbn [option_map]. 
        replace (add32 o (sizeof_tlv + it_len (decode_tlv [x00; x00; x00; x00])))
          with (o + 4)
          by (symmetry; apply add32_small; change (2 ^ 32) with 4294967296;
              vm_compute (sizeof_tlv + _); lia).
        reflexivity.
Qed.

Lemma cycle_loop fuel : forall o,
  on_cycle o ->
  next_loop fuel hdr_top flash_cycle (set_tlv_off cycle_it o) false = None.
Proof.
  induction fuel as [|n IH]; intros o Ho.
  - simpl. assert (Hlt : (o <? 4294967295) = true)
      by (apply Z.ltb_lt; destruct Ho as [->|[Hr _]]; lia).
    rewrite Hlt. reflexivity.
  - assert (Hlt : (tlv_off (set_tlv_off cycle_it o)
                     <? tlv_end (set_tlv_off cycle_it o)) = true)
      by (apply Z.ltb_lt; cbn [tlv_off tlv_end set_tlv_off cycle_it];
          destruct Ho as [->|[Hr _]]; lia).
    cbn [next_loop]. rewrite Hlt. cbn [negb].
    destruct (cycle_body o Ho) as (o' & Ho' & ->).
    rewrite (IH o' Ho'). reflexivity.
Qed.

(** C8 as stated fails where the cursor wraps.  On [flash_cycle] the
    iterator that [bootutil_tlv_iter_begin] produces is [cycle_it]; its
    cursor runs from 2^32 - 12 over 2^32 to 0, up to 2^32 - 20 in steps of
    four, and back to 2^32 - 12, below [tlv_end] at every step, and no
    number of iterations reaches a [return]. *)
Lemma next_cycle_never_returns :
  bootutil_tlv_iter_begin false (Some fresh_iter) (Some hdr_top)
    (Some flash_cycle) 1 false
  = (BeginOk, Some cycle_it, [4294967280]) /\
  forall fuel, bootutil_tlv_iter_next fuel (Some cycle_it) false = None.
Proof.
  split; [reflexivity|].
  intros fuel. unfold bootutil_tlv_iter_next.
  pose proof (cycle_loop fuel 4294967284 (or_introl eq_refl)) as Hloop.
  change (set_tlv_off cycle_it 4294967284) with cycle_it in Hloop.
  cbn [hdr fap cycle_it] in *. rewrite Hloop. reflexivity.
Qed.

(** * Further properties of the three functions *)

(** ** Initialization: what is accepted, what is read *)

(** [bootutil_tlv_iter_begin] uses of the iterator passed in only
    [start_off]. *)
Lemma begin_checked_start_off swap i1 i2 h f ty pr r tr :
  start_off i1 = start_off i2 ->
  begin_checked swap i1 h f ty pr = (BeginOk, r, tr) ->
  begin_checked swap i2 h f ty pr = (BeginOk, r, tr).
Proof.
  intros Hs. unfold begin_checked, begin_store, area_start. rewrite Hs.
  destruct (load_info h f _) as [info|]; [|discriminate].
  destruct (it_magic info =? IMAGE_TLV_PROT_INFO_MAGIC).
  - destruct (negb _); [discriminate|].
    destruct (load_info h f _) as [info2|]; [|discriminate].
    destruct (negb _); [discriminate|]. exact (fun E => E).
  - destruct (negb _); [discriminate|].
    destruct (negb _); [discriminate|]. exact (fun E => E).
Qed.

(** The result of [bootutil_tlv_iter_begin] on non-NULL arguments, by the
    records read. *)
Lemma begin_result_cases swap i h f ty pr :
  fst (fst (bootutil_tlv_iter_begin swap (Some i) (Some h) (Some f) ty pr)) =
  match load_info h f (area_start swap i h) with
  | None => BeginErr ReadFailure
  | Some first =>
    if it_magic first =? IMAGE_TLV_PROT_INFO_MAGIC then
      if ih_protect_tlv_size h =? it_tlv_tot first then
        match load_info h f (add32 (area_start swap i h) (it_tlv_tot first))
        with
        | None => BeginErr ReadFailure
        | Some second =>
          if it_magic second =? IMAGE_TLV_INFO_MAGIC then BeginOk
          else BeginErr CorruptFormat
        end
      else BeginErr CorruptFormat
    else if ih_protect_tlv_size h =? 0 then
      if it_magic first =? IMAGE_TLV_INFO_MAGIC then BeginOk
      else BeginErr CorruptFormat
    else BeginErr CorruptFormat
  end.
Proof.
  unfold bootutil_tlv_iter_begin, begin_checked, begin_store.
  destruct (load_info h f (area_start swap i h)) as [first|]; [|reflexivity].
  destruct (it_magic first =? IMAGE_TLV_PROT_INFO_MAGIC).
  - destruct (ih_protect_tlv_size h =? it_tlv_tot first); [|reflexivity].
    cbn [negb].
    destruct (load_info h f _) as [second|]; [|reflexivity].
    destruct (it_magic second =? IMAGE_TLV_INFO_MAGIC); reflexivity.
  - destruct (ih_protect_tlv_size h =? 0); [|reflexivity]. cbn [negb].
    destruct (it_magic first =? IMAGE_TLV_INFO_MAGIC); reflexivity.
Qed.

(** X1: [bootutil_tlv_iter_begin] succeeds exactly on the two trailer
    shapes: all arguments are non-NULL, the first info record is read, and
    either it carries the plain magic and the header declares no protected
    area, or it carries the protected magic with the declared size and the
    info record read after the protected area carries the plain magic. *)
Theorem begin_accepts_iff swap it p_hdr p_fap ty pr :
  fst (fst (bootutil_tlv_iter_begin swap it p_hdr p_fap ty pr)) = BeginOk <->
  exists i h f first,
    it = Some i /\ p_hdr = Some h /\ p_fap = Some f /\
    load_info h f (area_start swap i h) = Some first /\
    ((it_magic first = IMAGE_TLV_INFO_MAGIC /\ ih_protect_tlv_size h = 0) \/
     (it_magic first = IMAGE_TLV_PROT_INFO_MAGIC /\
      it_tlv_tot first = ih_protect_tlv_size h /\
      exists second,
        load_info h f (add32 (area_start swap i h) (it_tlv_tot first))
          = Some second /\
        it_magic second = IMAGE_TLV_INFO_MAGIC)).
Proof.
  destruct it as [i|]; [|split; [discriminate|intros (?&?&?&?&?&_); discriminate]].
  destruct p_hdr as [h|];
    [|split; [discriminate|intros (?&?&?&?&?&?&_); discriminate]].
  destruct p_fap as [f|];
    [|split; [discriminate|intros (?&?&?&?&?&?&?&_); discriminate]].
  rewrite begin_result_cases.
  set (off_ := area_start swap i h).
  pose proof magic_distinct as Hmd.
  split.
  - intros H. destruct (load_info h f off_) as [first|] eqn:H1; [|discriminate H].
    exists i, h, f, first. do 3 (split; [reflexivity|]).
    split; [exact H1|].
    destruct (it_magic first =? IMAGE_TLV_PROT_INFO_MAGIC) eqn:Hm.
    + apply Z.eqb_eq in Hm. right. split; [assumption|].
      destruct (ih_protect_tlv_size h =? it_tlv_tot first) eqn:Hp;
        [|discriminate H].
      apply Z.eqb_eq in Hp. split; [congruence|].
      destruct (load_info h f (add32 off_ (it_tlv_tot first)))
        as [second|] eqn:H2; [|discriminate H].
      exists second. split; [exact H2|].
      destruct (it_magic second =? IMAGE_TLV_INFO_MAGIC) eqn:Hm2;
        [|discriminate H].
      now apply Z.eqb_eq.
    + left.
      destruct (ih_protect_tlv_size h =? 0) eqn:Hp; [|discriminate H].
      destruct (it_magic first =? IMAGE_TLV_INFO_MAGIC) eqn:Hm2;
        [|discriminate H].
      split; now apply Z.eqb_eq.
  - intros (i' & h' & f' & first & Ei & Eh & Ef & H1 & Hshape).
    injection Ei as <-. injection Eh as <-. injection Ef as <-.
    fold off_ in H1, Hshape. rewrite H1.
    destruct Hshape as [[Hm Hp]|(Hm & Hp & second & H2 & Hm2)].
    + assert (Hn : (it_magic first =? IMAGE_TLV_PROT_INFO_MAGIC) = false)
        by (apply Z.eqb_neq; congruence).
      rewrite Hn, Hp, Hm. reflexivity.
    + rewrite Hm, Z.eqb_refl, <- Hp, Z.eqb_refl. rewrite H2.
      rewrite Hm2. reflexivity.
Qed.

Lemma begin_accepts_iff_witness :
  fst (fst (bootutil_tlv_iter_begin false (Some fresh_iter)
              (Some (hdr_at32 8))
              (Some (flash_of_bytes trailer_prot8_general))
              IMAGE_TLV_ANY false)) = BeginOk.
Proof.
  apply (proj2 (begin_accepts_iff false (Some fresh_iter) (Some (hdr_at32 8))
                  (Some (flash_of_bytes trailer_prot8_general))
                  IMAGE_TLV_ANY false)).
  exists fresh_iter, (hdr_at32 8), (flash_of_bytes trailer_prot8_general),
         {| it_magic := IMAGE_TLV_PROT_INFO_MAGIC; it_tlv_tot := 8 |}.
  do 4 (split; [reflexivity|]).
  right. split; [reflexivity|]. split; [reflexivity|].
  exists {| it_magic := IMAGE_TLV_INFO_MAGIC; it_tlv_tot := 12 |}.
  split; reflexivity.
Defined.



(** X3: initializing again rewinds.  After any sequence of calls of
    [bootutil_tlv_iter_next], [bootutil_tlv_iter_begin] with the same
    arguments stores the state that the first initialization stored: it
    reads of the iterator only [start_off], which the scan never writes. *)
Theorem begin_rewinds swap it h f ty pr it0 tr it1 :
  bootutil_tlv_iter_begin swap (Some it) (Some h) (Some f) ty pr
    = (BeginOk, Some it0, tr) ->
  advances it0 it1 ->
  bootutil_tlv_iter_begin swap (Some it1) (Some h) (Some f) ty pr
    = (BeginOk, Some it0, tr).
Proof.
  intros H Hadv. apply begin_some_inv in H.
  assert (Hs : start_off it = start_off it1).
  { destruct (begin_checked_ok _ _ _ _ _ _ _ _ H)
      as (_ & _ & _ & _ & _ & _ & _ & _ & _ & _ & _ & Hso).
    apply advances_frame in Hadv. rewrite Hadv. cbn [start_off set_tlv_off].
    congruence. }
  unfold bootutil_tlv_iter_begin.
  rewrite (begin_checked_start_off _ _ _ _ _ _ _ _ _ Hs H). reflexivity.
Qed.

Lemma begin_rewinds_witness :
  let it0 := any8_it trailer_prot8_general 12 in
  bootutil_tlv_iter_begin false (Some (set_tlv_off it0 40))
    (Some (hdr_at32 8)) (Some (flash_of_bytes trailer_prot8_general))
    IMAGE_TLV_ANY false
  = (BeginOk, Some it0, [32; 40]).
Proof.
  intros it0.
  apply (begin_rewinds false fresh_iter (hdr_at32 8)
           (flash_of_bytes trailer_prot8_general) IMAGE_TLV_ANY false
           it0 [32; 40] (set_tlv_off it0 40)).
  - reflexivity.
  - apply (advances_next it0 1 true (Found 40 0 (Some 2))
             (set_tlv_off it0 40) [36]); [reflexivity|apply advances_refl].
Defined.

(** ** What one call reads and writes *)

(** X4: [bootutil_tlv_iter_next] writes the cursor only.  Whatever the
    result, the header and flash pointers, the filter, the protected flag,
    [prot_end], [tlv_end] and [start_off] are those of the call. *)
Theorem next_writes_only_cursor fuel it tp r it' tr :
  bootutil_tlv_iter_next fuel (Some it) tp = Some (r, Some it', tr) ->
  hdr it' = hdr it /\ fap it' = fap it /\ type it' = type it /\
  prot it' = prot it /\ prot_end it' = prot_end it /\
  tlv_end it' = tlv_end it /\ start_off it' = start_off it.
Proof.
  intros H. apply next_frame in H. rewrite H. repeat split.
Qed.

Lemma next_writes_only_cursor_witness :
  let it := any8_it trailer_prot8_general 12 in
  prot_end (set_tlv_off it 52) = prot_end it /\
  tlv_end (set_tlv_off it 52) = tlv_end it.
Proof.
  intros it.
  assert (H : bootutil_tlv_iter_next 1 (Some (set_tlv_off it 40)) true
              = Some (Found 48 4 (Some 1), Some (set_tlv_off it 52), [44]))
    by reflexivity.
  destruct (next_writes_only_cursor _ _ _ _ _ _ H)
    as (_ & _ & _ & _ & Hpe & Hte & _).
  split; [exact Hpe|exact Hte].
Defined.

Lemma add32_4_neq x : add32 x sizeof_info <> x.
Proof.
  unfold add32, wrap32, sizeof_info. intros E.
  pose proof (Z.div_mod (x + 4) (2 ^ 32) ltac:(discriminate)) as Hdm.
  rewrite E in Hdm. change (2 ^ 32) with 4294967296 in Hdm. lia.
Qed.

(** The step over the info record is taken once: at the offset it leads
    to, it is not taken again. *)
Lemma skip_info_idem h it :
  skip_info h (set_tlv_off it (skip_info h it)) = skip_info h it.
Proof.
  destruct (skip_info_cases h it) as [E|(Hp & He & E)].
  - rewrite E, set_tlv_off_same. exact E.
  - rewrite E. unfold skip_info at 1. cbn [tlv_off prot_end set_tlv_off].
    rewrite <- He.
    destruct (add32 (tlv_off it) sizeof_info =? tlv_off it) eqn:Hq.
    + apply Z.eqb_eq in Hq. now apply add32_4_neq in Hq.
    + now rewrite andb_false_r.
Qed.

(** Where a run of the loop that did not find a record leaves the
    iterator. *)
Lemma next_loop_rest_state h f tp fuel it r it' tr :
  next_loop fuel h f it tp = Some (r, it', tr) ->
  match r with
  | Found _ _ _ => True
  | Exhausted =>
    tlv_end it' <= tlv_off it' \/
    (prot it' = true /\ prot_end it' <= tlv_off it' /\
     skip_info h it' = tlv_off it' /\ load_tlv h f (tlv_off it') <> None)
  | Error e =>
    e = ReadFailure /\ skip_info h it' = tlv_off it' /\
    load_tlv h f (tlv_off it') = None
  end.
Proof.
  intros H.
  refine (next_loop_elim h f tp
    (fun it res =>
       match fst (fst res) with
       | Found _ _ _ => True
       | Exhausted =>
         tlv_end (snd (fst res)) <= tlv_off (snd (fst res)) \/
         (prot (snd (fst res)) = true /\
          prot_end (snd (fst res)) <= tlv_off (snd (fst res)) /\
          skip_info h (snd (fst res)) = tlv_off (snd (fst res)) /\
          load_tlv h f (tlv_off (snd (fst res))) <> None)
       | Error e =>
         e = ReadFailure /\
         skip_info h (snd (fst res)) = tlv_off (snd (fst res)) /\
         load_tlv h f (tlv_off (snd (fst res))) = None
       end)
    _ _ _ fuel it (r, it', tr) H); clear; cbn [fst snd].
  - intros it Hle. left. assumption.
  - intros it r it1 c Hlt Hb. body_cases Hb Ho; subst r.
    + split; [reflexivity|]. split; [apply skip_info_idem|].
      cbn [tlv_off set_tlv_off]. assumption.
    + right. cbn [prot prot_end tlv_off set_tlv_off].
      split; [assumption|]. split; [assumption|].
      split; [apply skip_info_idem|]. congruence.
    + exact I.
  - intros it it1 c r it2 tr Hlt Hb IH. exact IH.
Qed.

(** X5: [Exhausted] is final.  After a call that returned 1, every later
    call on the same storage returns 1 again and leaves the iterator as it
    is, after one read at most. *)
Theorem exhausted_is_final fuel it tp it' tr :
  bootutil_tlv_iter_next fuel (Some it) tp = Some (Exhausted, Some it', tr) ->
  forall fuel' tp',
  exists tr',
    bootutil_tlv_iter_next (S fuel') (Some it') tp'
      = Some (Exhausted, Some it', tr') /\
    (length tr' <= 1)%nat.
Proof.
  intros H fuel' tp'.
  pose proof (next_frame _ _ _ _ _ _ H) as Hfr.
  destruct (next_some_inv _ _ _ _ _ _ H)
    as [(_ & Hr & _)|(h & f & Hh & Hf & Hl)]; [discriminate|].
  assert (Hh' : hdr it' = Some h) by (rewrite Hfr; exact Hh).
  assert (Hf' : fap it' = Some f) by (rewrite Hfr; exact Hf).
  rewrite (next_initialized _ _ _ _ _ Hh' Hf').
  apply next_loop_rest_state in Hl.
  destruct Hl as [Hend|(Hp & Hpe & Hs & Hload)].
  - exists []. cbn [next_loop].
    apply Z.ltb_ge in Hend. rewrite Hend. split; [reflexivity|simpl; lia].
  - cbn [next_loop].
    destruct (tlv_off it' <? tlv_end it'); cbn [negb].
    2:{ exists []. split; [reflexivity|simpl; lia]. }
    exists [tlv_off it']. split; [|simpl; lia].
    unfold next_body. rewrite Hs.
    destruct (load_tlv h f (tlv_off it')) as [t|]; [|congruence].
    apply Z.leb_le in Hpe. rewrite Hp, Hpe. cbn [andb].
    rewrite set_tlv_off_same. reflexivity.
Qed.

Lemma exhausted_is_final_witness :
  let it := set_tlv_off (prot8_it trailer_prot8 4) 44 in
  exists tr',
    bootutil_tlv_iter_next 1 (Some it) false = Some (Exhausted, Some it, tr') /\
    (length tr' <= 1)%nat.
Proof.
  intros it.
  exact (exhausted_is_final 1 (set_tlv_off (prot8_it trailer_prot8 4) 40)
           true it [44] eq_refl 0%nat false).
Defined.

(** X6: a failed read is not skipped.  After a call that returned a read
    failure, the cursor rests on the offset whose read failed, and the next
    call on the same storage fails on the same read again, unless that
    offset is at or past [tlv_end], where it returns 1 without a read. *)
Theorem read_failure_repeats fuel it tp it' tr :
  bootutil_tlv_iter_next fuel (Some it) tp
    = Some (Error ReadFailure, Some it', tr) ->
  forall fuel' tp',
    bootutil_tlv_iter_next (S fuel') (Some it') tp' =
    if tlv_off it' <? tlv_end it'
    then Some (Error ReadFailure, Some it', [tlv_off it'])
    else Some (Exhausted, Some it', []).
Proof.
  intros H fuel' tp'.
  pose proof (next_frame _ _ _ _ _ _ H) as Hfr.
  destruct (next_some_inv _ _ _ _ _ _ H)
    as [(_ & Hr & _)|(h & f & Hh & Hf & Hl)]; [discriminate|].
  assert (Hh' : hdr it' = Some h) by (rewrite Hfr; exact Hh).
  assert (Hf' : fap it' = Some f) by (rewrite Hfr; exact Hf).
  rewrite (next_initialized _ _ _ _ _ Hh' Hf').
  apply next_loop_rest_state in Hl. destruct Hl as (_ & Hs & Hload).
  cbn [next_loop].
  destruct (tlv_off it' <? tlv_end it'); cbn [negb]; [|reflexivity].
  unfold next_body. rewrite Hs, Hload, set_tlv_off_same. reflexivity.
Qed.

Lemma read_failure_repeats_witness :
  let f := flash_of_bytes (firstn 44 trailer_prot8) in
  let it := {| hdr := Some (hdr_at32 8); fap := Some f;
               type := IMAGE_TLV_ANY; prot := false; prot_end := 40;
               tlv_off := 40; start_off := 0; tlv_end := 44 |} in
  bootutil_tlv_iter_next 1 (Some it) true
    = Some (Error ReadFailure, Some (set_tlv_off it 44), [44]) /\
  bootutil_tlv_iter_next 1 (Some (set_tlv_off it 44)) true
    = Some (Exhausted, Some (set_tlv_off it 44), []).
Proof.
  intros f it.
  assert (H : bootutil_tlv_iter_next 1 (Some it) true
              = Some (Error ReadFailure, Some (set_tlv_off it 44), [44]))
    by reflexivity.
  split; [exact H|].
  exact (read_failure_repeats _ _ _ _ _ H 0%nat true).
Defined.

(** ** The reads of one call *)

(** One iteration without wrap-around: where it reads, and what a [Found]
    result says about the record read. *)
Lemma next_body_trace h f it tp o it1 c :
  no_wrap it -> tlv_off it < tlv_end it ->
  next_body h f it tp = (o, it1, c) ->
  (tlv_end it <= c ->
   0 < ih_protect_tlv_size h /\ c = prot_end it + sizeof_info) /\
  (forall off len ty, o = Return (Found off len ty) ->
     prot it = true -> c < prot_end it).
Proof.
  intros Hnw Hlt Hb.
  assert (Hc : c = skip_info h it) by (body_cases Hb Ho; reflexivity).
  split.
  - intros Hge. subst c.
    destruct (skip_info_cases h it) as [E|(Hp & He & E)]; [lia|].
    split; [assumption|]. rewrite E, He.
    destruct Hnw as [H0 Hw]. unfold_consts.
    apply add32_small. change (2 ^ 32) with 4294967296. lia.
  - intros off len ty Hfound Hp.
    body_cases Hb Ho; subst o; try discriminate.
    match goal with
    | H : prot it = false \/ _ |- _ => destruct H as [Hf|Hin]
    end; [congruence|assumption].
Qed.

Lemma next_loop_trace h f tp fuel it r it' tr :
  no_wrap it ->
  next_loop fuel h f it tp = Some (r, it', tr) ->
  tlv_off it <= tlv_off it' /\
  Forall (fun c => tlv_off it <= c <= tlv_off it' /\
                   c < tlv_end it + sizeof_info /\
                   (tlv_end it <= c ->
                    0 < ih_protect_tlv_size h /\
                    c = prot_end it + sizeof_info)) tr /\
  StronglySorted Z.lt tr /\
  (forall off len ty, r = Found off len ty ->
     In (off - sizeof_tlv) tr /\
     (prot it = true -> off - sizeof_tlv < prot_end it)).
Proof.
  intros Hnw H.
  refine (next_loop_elim h f tp
    (fun it res => no_wrap it ->
       tlv_off it <= tlv_off (snd (fst res)) /\
       Forall (fun c => tlv_off it <= c <= tlv_off (snd (fst res)) /\
                        c < tlv_end it + sizeof_info /\
                        (tlv_end it <= c ->
                         0 < ih_protect_tlv_size h /\
                         c = prot_end it + sizeof_info)) (snd res) /\
       StronglySorted Z.lt (snd res) /\
       (forall off len ty, fst (fst res) = Found off len ty ->
          In (off - sizeof_tlv) (snd res) /\
          (prot it = true -> off - sizeof_tlv < prot_end it)))
    _ _ _ fuel it (r, it', tr) H Hnw); clear; cbn [fst snd].
  - intros it _ _. split; [lia|]. split; [constructor|].
    split; [constructor|]. discriminate.
  - intros it r it1 c Hlt Hb Hnw.
    destruct (next_body_no_wrap _ _ _ _ _ _ _ Hnw Hlt Hb)
      as (Hc & Hc1 & _ & _ & Hfound).
    destruct (next_body_trace _ _ _ _ _ _ _ Hnw Hlt Hb) as (Hover & Hprot).
    unfold sizeof_info, sizeof_tlv in *.
    split; [lia|]. split.
    { constructor; [|constructor].
      split; [lia|]. split; [lia|]. exact Hover. }
    split; [repeat constructor|].
    intros off len ty ->.
    destruct (Hfound _ _ _ eq_refl) as (Hoff & _).
    replace (off - 4) with c by lia.
    split; [now left|]. exact (Hprot _ _ _ eq_refl).
  - intros it it1 c r it2 tr Hlt Hb IH Hnw.
    destruct (next_body_no_wrap _ _ _ _ _ _ _ Hnw Hlt Hb)
      as (Hc & Hc1 & Hnw1 & Hcont & _).
    specialize (Hcont eq_refl).
    destruct (next_body_trace _ _ _ _ _ _ _ Hnw Hlt Hb) as (Hover & _).
    pose proof (next_body_frame _ _ _ _ _ _ _ Hb) as Hfr.
    assert (Hte : tlv_end it1 = tlv_end it) by (rewrite Hfr; reflexivity).
    assert (Hpe : prot_end it1 = prot_end it) by (rewrite Hfr; reflexivity).
    assert (Hpr : prot it1 = prot it) by (rewrite Hfr; reflexivity).
    destruct (IH Hnw1) as (Hmono & Hall & Hsort & Hfound).
    rewrite Hte, Hpe in Hall. rewrite Hpe, Hpr in Hfound.
    unfold sizeof_info, sizeof_tlv in *.
    split; [lia|]. split.
    { constructor.
      - split; [lia|]. split; [lia|]. exact Hover.
      - eapply Forall_impl; [|exact Hall]. cbv beta.
        intros a (Ha & Hb' & Hc'). split; [lia|]. split; assumption. }
    split.
    { constructor; [assumption|].
      eapply Forall_impl; [|exact Hall]. cbv beta. intros a (Ha & _). lia. }
    intros off len ty Hr.
    destruct (Hfound _ _ _ Hr) as (Hin & Hp).
    split; [now right|assumption].
Qed.

(** X7: the reads of one call, where no sum wraps.  Every record header is
    read at or after the cursor of the call, at or before the cursor that
    the call leaves, and below [tlv_end + sizeof(info)]; the offsets read
    are strictly increasing; and a header at or past [tlv_end] is read only
    right after the step over the plain info record of a non-empty
    protected area, at [prot_end + sizeof(info)]. *)
Theorem next_reads_in_order fuel it tp r it' tr :
  no_wrap it ->
  bootutil_tlv_iter_next fuel (Some it) tp = Some (r, Some it', tr) ->
  Forall (fun c => tlv_off it <= c <= tlv_off it' /\
                   c < tlv_end it + sizeof_info) tr /\
  StronglySorted Z.lt tr /\
  (forall h c, hdr it = Some h -> In c tr -> tlv_end it <= c ->
     0 < ih_protect_tlv_size h /\ c = prot_end it + sizeof_info).
Proof.
  intros Hnw H.
  destruct (next_some_inv _ _ _ _ _ _ H)
    as [(_ & _ & _ & ->)|(h & f & Hh & Hf & Hl)].
  - split; [constructor|]. split; [constructor|]. intros h c _ [].
  - destruct (next_loop_trace _ _ _ _ _ _ _ _ Hnw Hl)
      as (_ & Hall & Hsort & _).
    split.
    { eapply Forall_impl; [|exact Hall]. cbv beta.
      intros a (Ha & Hb & _). split; assumption. }
    split; [assumption|].
    intros h' c Hh' Hin Hge.
    assert (h' = h) by congruence. subst h'.
    rewrite Forall_forall in Hall.
    destruct (Hall c Hin) as (_ & _ & Hover). exact (Hover Hge).
Qed.

Lemma next_reads_in_order_witness :
  StronglySorted Z.lt [36; 44].
Proof.
  pose (it := {| hdr := Some (hdr_at32 8);
                 fap := Some (flash_of_bytes trailer_prot8_general);
                 type := 1; prot := false; prot_end := 40; tlv_off := 36;
                 start_off := 0; tlv_end := 52 |}).
  assert (H : bootutil_tlv_iter_next 2 (Some it) true
              = Some (Found 48 4 (Some 1), Some (set_tlv_off it 52), [36; 44]))
    by reflexivity.
  assert (Hnw : no_wrap it) by (split; [vm_compute; discriminate|reflexivity]).
  exact (proj1 (proj2 (next_reads_in_order _ _ _ _ _ _ Hnw H))).
Defined.





(** ** The protected flag *)

(** X9: with the protected flag set and no sum wrapping, the header of
    every record returned starts at or after the cursor of the call and
    below [prot_end], and [bootutil_tlv_iter_is_prot] on the offset of that
    header (the payload offset returned less [sizeof(tlv)]) returns 1. *)
Theorem next_prot_header_is_prot fuel it tp off len ty it' tr :
  no_wrap it -> prot it = true ->
  bootutil_tlv_iter_next fuel (Some it) tp
    = Some (Found off len ty, Some it', tr) ->
  tlv_off it <= off - sizeof_tlv < prot_end it /\
  fst (fst (bootutil_tlv_iter_is_prot (Some it') (off - sizeof_tlv))) = 1.
Proof.
  intros Hnw Hp H.
  pose proof (next_frame _ _ _ _ _ _ H) as Hfr.
  destruct (next_some_inv _ _ _ _ _ _ H)
    as [(_ & Hr & _)|(h & f & Hh & Hf & Hl)]; [discriminate|].
  destruct (next_loop_trace _ _ _ _ _ _ _ _ Hnw Hl)
    as (_ & Hall & _ & Hfound).
  destruct (Hfound _ _ _ eq_refl) as (Hin & Hlt). specialize (Hlt Hp).
  rewrite Forall_forall in Hall. destruct (Hall _ Hin) as ((Hge & _) & _).
  split; [lia|].
  unfold bootutil_tlv_iter_is_prot. rewrite Hfr.
  cbn [hdr fap prot_end set_tlv_off]. rewrite Hh, Hf.
  apply Z.ltb_lt in Hlt. rewrite Hlt. reflexivity.
Qed.

Lemma next_prot_header_is_prot_witness :
  let it := prot8_it trailer_prot8 4 in
  36 <= 40 - sizeof_tlv < 40 /\
  fst (fst (bootutil_tlv_iter_is_prot (Some (set_tlv_off it 40))
              (40 - sizeof_tlv))) = 1.
Proof.
  intros it.
  assert (Hnw : no_wrap it) by (split; [vm_compute; discriminate|reflexivity]).
  exact (next_prot_header_is_prot 1 it true 40 0 (Some 2)
           (set_tlv_off it 40) [36] Hnw eq_refl eq_refl).
Defined.

(** X10: with the protected flag set and no sum wrapping, once the cursor
    has reached [prot_end] no call of any later sequence of calls returns
    [Found]: a protected-only scan never returns a record of the general
    area. *)
Theorem prot_scan_stays_protected it it1 fuel tp r it2 tr :
  no_wrap it -> prot it = true -> prot_end it <= tlv_off it ->
  advances it it1 ->
  bootutil_tlv_iter_next fuel (Some it1) tp = Some (r, Some it2, tr) ->
  forall off len ty, r <> Found off len ty.
Proof.
  intros Hnw Hp Hle Hadv H off len ty ->.
  destruct (advances_no_wrap _ _ Hnw Hadv) as [Hmono Hnw1].
  pose proof (advances_frame _ _ Hadv) as Hfr.
  assert (Hp1 : prot it1 = true) by (rewrite Hfr; exact Hp).
  assert (Hpe : prot_end it1 = prot_end it) by (rewrite Hfr; reflexivity).
  destruct (next_some_inv _ _ _ _ _ _ H)
    as [(_ & Hr & _)|(h & f & Hh & Hf & Hl)]; [discriminate|].
  destruct (next_loop_trace _ _ _ _ _ _ _ _ Hnw1 Hl)
    as (_ & Hall & _ & Hfound).
  destruct (Hfound _ _ _ eq_refl) as (Hin & Hlt). specialize (Hlt Hp1).
  rewrite Forall_forall in Hall. destruct (Hall _ Hin) as ((Hge & _) & _).
  lia.
Qed.

Lemma prot_scan_stays_protected_witness :
  let it := set_tlv_off (prot8_it trailer_prot8_general 12) 40 in
  bootutil_tlv_iter_next 1 (Some it) true
    = Some (Exhausted, Some (set_tlv_off it 44), [44]) /\
  Exhausted <> Found 48 4 (Some 1).
Proof.
  intros it.
  assert (Hnw : no_wrap it) by (split; [vm_compute; discriminate|reflexivity]).
  assert (Hle : prot_end it <= tlv_off it) by (vm_compute; discriminate).
  assert (H : bootutil_tlv_iter_next 1 (Some it) true
              = Some (Exhausted, Some (set_tlv_off it 44), [44]))
    by reflexivity.
  split; [exact H|].
  exact (prot_scan_stays_protected it it 1 true Exhausted
           (set_tlv_off it 44) [44] Hnw eq_refl Hle
           (advances_refl it) H 48 4 (Some 1)).
Defined.

(** ** Scanning a trailer that is laid out as the format says *)

Lemma records_size_nonneg h f o rs :
  laid_out h f o rs -> 0 <= records_size rs.
Proof.
  revert o. induction rs as [|t rest IH]; intros o;
    cbn [laid_out records_size]; [lia|].
  intros [Hl Hrest]. pose proof (load_tlv_range _ _ _ _ Hl) as [_ Hlen].
  specialize (IH _ Hrest). unfold sizeof_tlv. lia.
Qed.

Lemma records_size_pos h f o rs :
  laid_out h f o rs -> rs <> [] -> sizeof_tlv <= records_size rs.
Proof.
  destruct rs as [|t rest]; [congruence|]. cbn [laid_out records_size].
  intros [Hl Hrest] _. pose proof (load_tlv_range _ _ _ _ Hl) as [_ Hlen].
  pose proof (records_size_nonneg _ _ _ _ Hrest). unfold sizeof_tlv. lia.
Qed.

Lemma next_step_return h f it tp r it1 c fuel :
  hdr it = Some h -> fap it = Some f -> tlv_off it < tlv_end it ->
  next_body h f it tp = (Return r, it1, c) ->
  bootutil_tlv_iter_next (S fuel) (Some it) tp = Some (r, Some it1, [c]).
Proof.
  intros Hh Hf Hlt Hb. rewrite (next_initialized _ _ _ _ _ Hh Hf).
  cbn [next_loop]. apply Z.ltb_lt in Hlt. rewrite Hlt. cbn [negb].
  rewrite Hb. reflexivity.
Qed.

Lemma next_step_continue h f it tp it1 c fuel r it' tr :
  hdr it = Some h -> fap it = Some f -> tlv_off it < tlv_end it ->
  next_body h f it tp = (Continue, it1, c) ->
  bootutil_tlv_iter_next fuel (Some it1) tp = Some (r, Some it', tr) ->
  bootutil_tlv_iter_next (S fuel) (Some it) tp = Some (r, Some it', c :: tr).
Proof.
  intros Hh Hf Hlt Hb H1.
  pose proof (next_body_frame _ _ _ _ _ _ _ Hb) as Hfr.
  assert (Hh1 : hdr it1 = Some h) by (rewrite Hfr; exact Hh).
  assert (Hf1 : fap it1 = Some f) by (rewrite Hfr; exact Hf).
  rewrite (next_initialized _ _ _ _ _ Hh1 Hf1) in H1.
  rewrite (next_initialized _ _ _ _ _ Hh Hf).
  cbn [next_loop]. apply Z.ltb_lt in Hlt. rewrite Hlt. cbn [negb].
  rewrite Hb.
  destruct (next_loop fuel h f it1 tp) as [[[r0 i0] tr0]|]; [|discriminate].
  apply (f_equal (fun o => match o with
                           | Some x => x
                           | None => (r, Some it', tr)
                           end)) in H1.
  apply triple_inj in H1. destruct H1 as (-> & E & ->).
  injection E as ->. reflexivity.
Qed.

(** A record that was skipped belongs to the call that follows it. *)
Lemma scans_skip h f it tp it1 c out itf :
  hdr it = Some h -> fap it = Some f -> tlv_off it < tlv_end it ->
  next_body h f it tp = (Continue, it1, c) ->
  scans tp it1 out itf -> scans tp it out itf.
Proof.
  intros Hh Hf Hlt Hb Hs.
  destruct Hs as [it1 fuel it' tr H1|it1 fuel off len ty it2 tr out it' H1 Hrest].
  - eapply scans_done.
    exact (next_step_continue _ _ _ _ _ _ _ _ _ _ Hh Hf Hlt Hb H1).
  - eapply scans_found; [|exact Hrest].
    exact (next_step_continue _ _ _ _ _ _ _ _ _ _ Hh Hf Hlt Hb H1).
Qed.

(** The iteration on a record inside an area. *)
Lemma next_body_record h f it tp t :
  0 <= tlv_off it ->
  tlv_off it + sizeof_tlv + it_len t < 2 ^ 32 ->
  load_tlv h f (tlv_off it) = Some t ->
  tlv_off it <> prot_end it ->
  (prot it = false \/ tlv_off it < prot_end it) ->
  next_body h f it tp =
  ((if tlv_matches (type it) t
    then Return (Found (tlv_off it + sizeof_tlv) (it_len t)
                       (if tp then Some (it_type t) else None))
    else Continue),
   set_tlv_off it (tlv_off it + sizeof_tlv + it_len t), tlv_off it).
Proof.
  intros H0 Hw Hl Hne Hin.
  pose proof (load_tlv_range _ _ _ _ Hl) as [_ Hlen].
  assert (Hs : skip_info h it = tlv_off it).
  { unfold skip_info. apply Z.eqb_neq in Hne. rewrite Hne, andb_false_r.
    reflexivity. }
  unfold next_body. rewrite Hs, Hl.
  assert (Hstop : prot it && (prot_end it <=? tlv_off it) = false).
  { apply andb_false_iff. destruct Hin as [Hp|Hlt]; [now left|right].
    now apply Z.leb_gt. }
  rewrite Hstop. unfold tlv_matches.
  assert (E1 : add32 (tlv_off it) sizeof_tlv = tlv_off it + sizeof_tlv).
  { apply add32_small. unfold sizeof_tlv, UINT16_MAX in *. lia. }
  assert (E2 : add32 (tlv_off it) (sizeof_tlv + it_len t)
               = tlv_off it + sizeof_tlv + it_len t).
  { rewrite add32_small; unfold sizeof_tlv, UINT16_MAX in *; lia. }
  rewrite E1, E2.
  destruct ((type it =? IMAGE_TLV_ANY) || (it_type t =? type it)); reflexivity.
Qed.

(** The records of one area, and then whatever the scan yields from the end
    of the area. *)
Lemma scans_area tp h f rs : forall it out itf,
  hdr it = Some h -> fap it = Some f ->
  0 <= tlv_off it ->
  laid_out h f (tlv_off it) rs ->
  tlv_off it + records_size rs <= tlv_end it ->
  tlv_off it + records_size rs < 2 ^ 32 ->
  in_area it (tlv_off it) (tlv_off it + records_size rs) ->
  scans tp (set_tlv_off it (tlv_off it + records_size rs)) out itf ->
  scans tp it (expected (type it) tp (tlv_off it) rs ++ out) itf.
Proof.
  induction rs as [|t rest IH]; intros it out itf Hh Hf H0 Hlay Hend Hw Hin Hk.
  - simpl in *. rewrite Z.add_0_r, set_tlv_off_same in Hk. exact Hk.
  - cbn [laid_out records_size expected] in *.
    destruct Hlay as [Hl Hrest].
    pose proof (load_tlv_range _ _ _ _ Hl) as [_ Hlen].
    pose proof (records_size_nonneg _ _ _ _ Hrest) as Hsz.
    unfold sizeof_tlv, UINT16_MAX in *.
    assert (Hlt : tlv_off it < tlv_end it) by lia.
    assert (Hb := next_body_record h f it tp t H0 ltac:(unfold sizeof_tlv; lia)
                    Hl).
    unfold sizeof_tlv in Hb.
    assert (Hne : tlv_off it <> prot_end it)
      by (destruct Hin as [Hin|[Hin _]]; lia).
    assert (Hin' : prot it = false \/ tlv_off it < prot_end it)
      by (destruct Hin as [Hin|[_ Hin]]; [right; lia|now left]).
    specialize (Hb Hne Hin').
    set (it1 := set_tlv_off it (tlv_off it + 4 + it_len t)) in *.
    assert (Hscan : scans tp it1
              (expected (type it) tp (tlv_off it + 4 + it_len t) rest ++ out)
              itf).
    { apply (IH it1); try assumption.
      - cbn. lia.
      - cbn [tlv_off tlv_end set_tlv_off it1]. lia.
      - cbn [tlv_off set_tlv_off it1]. lia.
      - unfold in_area in *. cbn [tlv_off prot_end prot set_tlv_off it1].
        destruct Hin as [Hin|[Hin Hp]]; [left; lia|right; split; [lia|exact Hp]].
      - unfold it1. rewrite set_tlv_off_set. cbn [tlv_off set_tlv_off].
        replace (tlv_off it + 4 + it_len t + records_size rest)
          with (tlv_off it + (4 + it_len t + records_size rest)) by lia.
        exact Hk. }
    destruct (tlv_matches (type it) t).
    + cbn [app]. eapply scans_found; [|exact Hscan].
      exact (next_step_return _ _ _ _ _ _ _ 0%nat Hh Hf Hlt Hb).
    + exact (scans_skip _ _ _ _ _ _ _ _ Hh Hf Hlt Hb Hscan).
Qed.

(** At the end of the trailer the scan is over. *)
Lemma scans_end tp it :
  initialized it = true -> tlv_end it <= tlv_off it -> scans tp it [] it.
Proof.
  intros Hi Hle. unfold initialized in Hi.
  destruct (hdr it) as [h|] eqn:Hh; [|discriminate].
  destruct (fap it) as [f|] eqn:Hf; [|discriminate].
  apply (scans_done tp it 0 it []).
  rewrite (next_initialized _ _ _ _ _ Hh Hf). cbn [next_loop].
  apply Z.ltb_ge in Hle. rewrite Hle. reflexivity.
Qed.

Lemma begin_plain_trailer swap it h f ty pr rs :
  plain_trailer h f (area_start swap it h) rs ->
  bootutil_tlv_iter_begin swap (Some it) (Some h) (Some f) ty pr
  = (BeginOk,
     Some (begun it h f ty pr (area_start swap it h) 0
             (sizeof_info + records_size rs)),
     [area_start swap it h]).
Proof.
  intros (Hp & Hl & Hlay & Hw).
  pose proof (area_start_range swap it h) as Hoff.
  pose proof (records_size_nonneg _ _ _ _ Hlay) as Hsz.
  unfold bootutil_tlv_iter_begin, begin_checked, begin_store, begun.
  set (off_ := area_start swap it h) in *.
  rewrite Hl. cbn [it_magic it_tlv_tot].
  change (IMAGE_TLV_INFO_MAGIC =? IMAGE_TLV_PROT_INFO_MAGIC) with false.
  rewrite Hp, Z.eqb_refl. cbn [negb].
  rewrite Z.eqb_refl. cbn [negb].
  unfold sizeof_info in *.
  rewrite (add32_small off_ 0) by lia.
  rewrite (add32_small off_ 4) by lia.
  rewrite (add32_small (off_ + 0)) by lia.
  reflexivity.
Qed.

Lemma begin_prot_trailer swap it h f ty pr ps gs :
  prot_trailer h f (area_start swap it h) ps gs ->
  bootutil_tlv_iter_begin swap (Some it) (Some h) (Some f) ty pr
  = (BeginOk,
     Some (begun it h f ty pr (area_start swap it h)
             (sizeof_info + records_size ps)
             (sizeof_info + records_size gs)),
     [area_start swap it h;
      area_start swap it h + (sizeof_info + records_size ps)]).
Proof.
  intros (Hp & Hl & Hlay & Hl2 & Hlay2 & Hw).
  pose proof (area_start_range swap it h) as Hoff.
  pose proof (records_size_nonneg _ _ _ _ Hlay) as Hsz.
  pose proof (records_size_nonneg _ _ _ _ Hlay2) as Hsz2.
  unfold bootutil_tlv_iter_begin, begin_checked, begin_store, begun.
  set (off_ := area_start swap it h) in *.
  rewrite Hl. cbn [it_magic it_tlv_tot].
  rewrite Z.eqb_refl, Hp, Z.eqb_refl. cbn [negb].
  unfold sizeof_info in *.
  rewrite (add32_small off_ (4 + records_size ps)) by lia.
  replace (off_ + (4 + records_size ps)) with (off_ + 4 + records_size ps)
    by lia.
  rewrite Hl2. cbn [it_magic it_tlv_tot]. rewrite Z.eqb_refl. cbn [negb].
  rewrite (add32_small off_ 4) by lia.
  rewrite (add32_small (off_ + 4 + records_size ps)) by lia.
  replace (off_ + 4 + records_size ps) with (off_ + (4 + records_size ps))
    by lia.
  reflexivity.
Qed.

(** At the boundary of a non-empty protected area, with a record in the
    general area, a call from [prot_end] is a call from the first record of
    the general area. *)
Lemma next_at_boundary h f it tp fuel :
  hdr it = Some h -> fap it = Some f ->
  0 < ih_protect_tlv_size h -> 0 <= prot_end it ->
  prot_end it + sizeof_info < tlv_end it -> tlv_end it < 2 ^ 32 ->
  bootutil_tlv_iter_next fuel (Some (set_tlv_off it (prot_end it))) tp
  = bootutil_tlv_iter_next fuel
      (Some (set_tlv_off it (prot_end it + sizeof_info))) tp.
Proof.
  intros Hh Hf Hp H0 Hlt Hw.
  rewrite (next_initialized _ _ _ h f) by exact Hh || exact Hf.
  rewrite (next_initialized _ (set_tlv_off it (prot_end it + sizeof_info))
             _ h f) by exact Hh || exact Hf.
  assert (Hs1 : skip_info h (set_tlv_off it (prot_end it))
                = prot_end it + sizeof_info).
  { unfold skip_info. cbn [tlv_off prot_end set_tlv_off].
    apply Z.ltb_lt in Hp. rewrite Hp, Z.eqb_refl. cbn [andb].
    apply add32_small. unfold sizeof_info in *. lia. }
  assert (Hs2 : skip_info h (set_tlv_off it (prot_end it + sizeof_info))
                = prot_end it + sizeof_info).
  { unfold skip_info. cbn [tlv_off prot_end set_tlv_off].
    assert (Hne : (prot_end it + sizeof_info =? prot_end it) = false)
      by (apply Z.eqb_neq; unfold sizeof_info; lia).
    rewrite Hne, andb_false_r. reflexivity. }
  assert (Hbody : next_body h f (set_tlv_off it (prot_end it)) tp
                  = next_body h f
                      (set_tlv_off it (prot_end it + sizeof_info)) tp).
  { unfold next_body. rewrite Hs1, Hs2, !set_tlv_off_set. reflexivity. }
  assert (Hc1 : (prot_end it <? tlv_end it) = true)
    by (apply Z.ltb_lt; unfold sizeof_info in *; lia).
  assert (Hc2 : (prot_end it + sizeof_info <? tlv_end it) = true)
    by (apply Z.ltb_lt; lia).
  destruct fuel as [|n]; cbn [next_loop tlv_off tlv_end set_tlv_off];
    rewrite Hc1, Hc2; cbn [negb]; [reflexivity|].
  rewrite Hbody. reflexivity.
Qed.

Lemma scans_at_boundary h f it tp out itf :
  hdr it = Some h -> fap it = Some f ->
  0 < ih_protect_tlv_size h -> 0 <= prot_end it ->
  prot_end it + sizeof_info < tlv_end it -> tlv_end it < 2 ^ 32 ->
  scans tp (set_tlv_off it (prot_end it + sizeof_info)) out itf ->
  scans tp (set_tlv_off it (prot_end it)) out itf.
Proof.
  intros Hh Hf Hp H0 Hlt Hw Hs.
  remember (set_tlv_off it (prot_end it + sizeof_info)) as itc eqn:Eitc.
  destruct Hs as [itc fuel it' tr H1|itc fuel off len ty it2 tr out it' H1 Hrest];
    subst itc;
    rewrite <- (next_at_boundary _ _ _ _ _ Hh Hf Hp H0 Hlt Hw) in H1.
  - eapply scans_done. exact H1.
  - eapply scans_found; [exact H1|exact Hrest].
Qed.

Ltac iter_simpl :=
  cbn [hdr fap type prot prot_end tlv_off tlv_end start_off begun
       set_tlv_off] in *;
  unfold sizeof_info, sizeof_tlv in *.

(** X11: the scan of a trailer without protected area.  Where the storage
    holds a plain info record followed by the records [rs] back to back,
    [bootutil_tlv_iter_begin] succeeds after one read, and calling
    [bootutil_tlv_iter_next] until it returns 1 yields the records of [rs]
    that pass the filter (all of them for the wildcard), each once, in the
    order of the trailer, with the offset and length of its payload, and
    leaves the cursor at [tlv_end]. *)
Theorem scan_plain_trailer swap it h f ty tp rs :
  plain_trailer h f (area_start swap it h) rs ->
  let off_ := area_start swap it h in
  let it0 := begun it h f ty false off_ 0 (sizeof_info + records_size rs) in
  bootutil_tlv_iter_begin swap (Some it) (Some h) (Some f) ty false
    = (BeginOk, Some it0, [off_]) /\
  scans tp it0 (expected ty tp (off_ + sizeof_info) rs)
        (set_tlv_off it0 (tlv_end it0)).
Proof.
  intros Ht off_ it0. split; [exact (begin_plain_trailer _ _ _ _ _ _ _ Ht)|].
  destruct Ht as (Hp & Hl & Hlay & Hw). fold off_ in Hl, Hlay, Hw.
  pose proof (area_start_range swap it h) as Hoff. fold off_ in Hoff.
  pose proof (records_size_nonneg _ _ _ _ Hlay) as Hsz.
  unfold sizeof_info in *.
  rewrite <- (app_nil_r (expected _ _ _ _)).
  assert (Hend : tlv_off it0 + records_size rs = tlv_end it0)
    by (subst it0; iter_simpl; lia).
  rewrite <- Hend.
  apply (scans_area tp h f rs it0); try reflexivity; subst it0; iter_simpl;
    try lia.
  - exact Hlay.
  - right. iter_simpl. split; [lia|reflexivity].
  - apply scans_end; [reflexivity|]. iter_simpl. lia.
Qed.

(** X12: the scan of a trailer with both areas, without the protected
    flag.  Where the storage holds a protected info record, the records
    [ps], a plain info record and the records [gs], with at least one
    record in the general area, [bootutil_tlv_iter_begin] succeeds after two
    reads, and calling [bootutil_tlv_iter_next] until it returns 1 yields
    the records of [ps] that pass the filter followed by the records of
    [gs] that pass it, in the order of the trailer, and leaves the cursor at
    [tlv_end]. *)
Theorem scan_both_areas swap it h f ty tp ps gs :
  prot_trailer h f (area_start swap it h) ps gs ->
  gs <> [] ->
  let off_ := area_start swap it h in
  let protect := sizeof_info + records_size ps in
  let it0 := begun it h f ty false off_ protect
               (sizeof_info + records_size gs) in
  bootutil_tlv_iter_begin swap (Some it) (Some h) (Some f) ty false
    = (BeginOk, Some it0, [off_; off_ + protect]) /\
  scans tp it0
        (expected ty tp (off_ + sizeof_info) ps ++
         expected ty tp (off_ + protect + sizeof_info) gs)
        (set_tlv_off it0 (tlv_end it0)).
Proof.
  intros Ht Hgs off_ protect it0.
  split; [exact (begin_prot_trailer _ _ _ _ _ _ _ _ Ht)|].
  destruct Ht as (Hp & Hl & Hlay & Hl2 & Hlay2 & Hw).
  fold off_ in Hl, Hlay, Hl2, Hlay2, Hw.
  pose proof (area_start_range swap it h) as Hoff. fold off_ in Hoff.
  pose proof (records_size_nonneg _ _ _ _ Hlay) as Hsz.
  pose proof (records_size_pos _ _ _ _ Hlay2 Hgs) as Hsz2.
  unfold sizeof_info, sizeof_tlv in *.
  assert (Hpe : tlv_off it0 + records_size ps = prot_end it0)
    by (subst it0 protect; iter_simpl; lia).
  apply (scans_area tp h f ps it0); try reflexivity.
  - subst it0. iter_simpl. lia.
  - exact Hlay.
  - rewrite Hpe. subst it0 protect. iter_simpl. lia.
  - rewrite Hpe. subst it0 protect. iter_simpl. lia.
  - left. rewrite Hpe. lia.
  - rewrite Hpe.
    apply (scans_at_boundary h f it0); try reflexivity;
      try (unfold sizeof_info; subst it0 protect; iter_simpl; lia).
    set (itc := set_tlv_off it0 (prot_end it0 + sizeof_info)).
    assert (Hc : tlv_off itc = off_ + protect + 4) by reflexivity.
    assert (Hend : tlv_off itc + records_size gs = tlv_end itc)
      by (subst itc it0 protect; iter_simpl; unfold sizeof_info; lia).
    rewrite <- (app_nil_r (expected _ _ _ gs)).
    replace (set_tlv_off it0 (tlv_end it0))
      with (set_tlv_off itc (tlv_off itc + records_size gs))
      by (rewrite Hend; reflexivity).
    change ty with (type itc). rewrite <- Hc.
    apply (scans_area tp h f gs itc); try reflexivity.
    + rewrite Hc. unfold protect. lia.
    + rewrite Hc. unfold protect.
      replace (off_ + (4 + records_size ps) + 4)
        with (off_ + 4 + records_size ps + 4) by lia.
      exact Hlay2.
    + lia.
    + rewrite Hend. subst itc it0 protect. iter_simpl. lia.
    + right. split; [|reflexivity]. rewrite Hc.
      subst itc it0 protect. iter_simpl. lia.
    + rewrite Hend. apply scans_end; [reflexivity|].
      iter_simpl. lia.
Qed.

Lemma skip_info_boundary h it :
  0 < ih_protect_tlv_size h -> tlv_off it = prot_end it ->
  0 <= prot_end it -> prot_end it + sizeof_info < 2 ^ 32 ->
  skip_info h it = prot_end it + sizeof_info.
Proof.
  intros Hp He H0 Hw. unfold skip_info.
  apply Z.ltb_lt in Hp. rewrite Hp, He, Z.eqb_refl. cbn [andb].
  apply add32_small. unfold sizeof_info in *. lia.
Qed.

(** X13: the scan of a trailer with both areas, with the protected flag.
    Where the storage holds a protected info record, the records [ps], a
    plain info record and the records [gs], with at least one record in the
    general area, calling [bootutil_tlv_iter_next] until it returns 1
    yields the records of [ps] that pass the filter, in the order of the
    trailer, and none of [gs]; the cursor is left on the first record of
    the general area. *)
Theorem scan_protected_only swap it h f ty tp ps gs :
  prot_trailer h f (area_start swap it h) ps gs ->
  gs <> [] ->
  let off_ := area_start swap it h in
  let protect := sizeof_info + records_size ps in
  let it0 := begun it h f ty true off_ protect
               (sizeof_info + records_size gs) in
  bootutil_tlv_iter_begin swap (Some it) (Some h) (Some f) ty true
    = (BeginOk, Some it0, [off_; off_ + protect]) /\
  scans tp it0 (expected ty tp (off_ + sizeof_info) ps)
        (set_tlv_off it0 (prot_end it0 + sizeof_info)).
Proof.
  intros Ht Hgs off_ protect it0.
  split; [exact (begin_prot_trailer _ _ _ _ _ _ _ _ Ht)|].
  destruct Ht as (Hp & Hl & Hlay & Hl2 & Hlay2 & Hw).
  fold off_ in Hl, Hlay, Hl2, Hlay2, Hw.
  pose proof (area_start_range swap it h) as Hoff. fold off_ in Hoff.
  pose proof (records_size_nonneg _ _ _ _ Hlay) as Hsz.
  pose proof (records_size_pos _ _ _ _ Hlay2 Hgs) as Hsz2.
  destruct gs as [|g gs']; [congruence|]. cbn [laid_out] in Hlay2.
  destruct Hlay2 as [Hg _].
  unfold sizeof_info, sizeof_tlv in *.
  assert (Hpe : tlv_off it0 + records_size ps = prot_end it0)
    by (subst it0 protect; iter_simpl; lia).
  rewrite <- (app_nil_r (expected _ _ _ ps)).
  apply (scans_area tp h f ps it0); try reflexivity.
  - subst it0. iter_simpl. lia.
  - exact Hlay.
  - rewrite Hpe. subst it0 protect. iter_simpl. lia.
  - rewrite Hpe. subst it0 protect. iter_simpl. lia.
  - left. rewrite Hpe. lia.
  - rewrite Hpe.
    set (itb := set_tlv_off it0 (prot_end it0)).
    assert (Hs : skip_info h itb = prot_end it0 + 4).
    { change (prot_end it0 + 4) with (prot_end itb + sizeof_info).
      apply skip_info_boundary; try reflexivity;
        subst itb it0 protect; iter_simpl; lia. }
    replace (set_tlv_off it0 (prot_end it0 + 4))
      with (set_tlv_off itb (prot_end it0 + 4)) by reflexivity.
    apply (scans_done tp itb 1 _ [prot_end it0 + 4]).
    apply (next_step_return h f itb tp); try reflexivity.
    + subst itb it0 protect. iter_simpl. lia.
    + unfold next_body. rewrite Hs.
      replace (prot_end it0 + 4) with (off_ + 4 + records_size ps + 4)
        by (subst it0 protect; iter_simpl; lia).
      rewrite Hg.
      assert (Hstop : (prot_end itb <=? off_ + 4 + records_size ps + 4) = true)
        by (apply Z.leb_le; subst itb it0 protect; iter_simpl; lia).
      rewrite Hstop. reflexivity.
Qed.

(** X14: the loop condition is not tested again after the step over the
    plain info record.  With the cursor at the end of a non-empty protected
    area and no record in the general area ([tlv_end] at most
    [prot_end + sizeof(info)]), a call without the protected flag reads a
    record header at [prot_end + sizeof(info)], at or past [tlv_end], and
    returns it as [Found] when it passes the filter, leaving the cursor
    past [tlv_end]. *)
Theorem next_reads_past_empty_general_area h f it tp t fuel :
  hdr it = Some h -> fap it = Some f ->
  0 < ih_protect_tlv_size h -> tlv_off it = prot_end it ->
  0 <= prot_end it -> prot_end it + sizeof_info < 2 ^ 32 ->
  prot_end it < tlv_end it -> tlv_end it <= prot_end it + sizeof_info ->
  prot it = false ->
  load_tlv h f (prot_end it + sizeof_info) = Some t ->
  tlv_matches (type it) t = true ->
  bootutil_tlv_iter_next (S fuel) (Some it) tp =
  Some (Found (add32 (prot_end it + sizeof_info) sizeof_tlv) (it_len t)
              (if tp then Some (it_type t) else None),
        Some (set_tlv_off it
                (add32 (prot_end it + sizeof_info) (sizeof_tlv + it_len t))),
        [prot_end it + sizeof_info]).
Proof.
  intros Hh Hf Hp He H0 Hw Hlt Hend Hprot Hl Hm.
  apply (next_step_return h f it tp); try assumption; [lia|].
  unfold next_body.
  rewrite (skip_info_boundary h it Hp He H0 Hw), Hl, Hprot. cbn [andb].
  unfold tlv_matches in Hm. rewrite Hm. reflexivity.
Qed.

Lemma next_reads_past_empty_general_area_witness :
  let it := set_tlv_off (any8_it trailer_prot8 4) 40 in
  tlv_end it <= 44 /\
  bootutil_tlv_iter_next 1 (Some it) true
  = Some (Found 48 65535 (Some 65535), Some (set_tlv_off it 65583), [44]).
Proof.
  intros it. split; [vm_compute; discriminate|].
  exact (next_reads_past_empty_general_area (hdr_at32 8)
           (flash_of_bytes trailer_prot8) it true
           {| it_type := 65535; it_len := 65535 |} 0
           eq_refl eq_refl eq_refl eq_refl
           ltac:(vm_compute; discriminate) eq_refl eq_refl
           ltac:(vm_compute; discriminate) eq_refl eq_refl eq_refl).
Defined.

Lemma scan_plain_trailer_witness :
  scans true plain12_it [(40, 4, Some 1)] (set_tlv_off plain12_it 44).
Proof.
  assert (Ht : plain_trailer (hdr_at32 0) (flash_of_bytes trailer_plain12)
                 (area_start false fresh_iter (hdr_at32 0))
                 [{| it_type := 1; it_len := 4 |}]).
  { split; [reflexivity|]. split; [reflexivity|].
    split; [split; [reflexivity|exact I]|reflexivity]. }
  exact (proj2 (scan_plain_trailer false fresh_iter (hdr_at32 0)
                  (flash_of_bytes trailer_plain12) 1 true _ Ht)).
Defined.

Lemma prot8_general_layout :
  prot_trailer (hdr_at32 8) (flash_of_bytes trailer_prot8_general)
    (area_start false fresh_iter (hdr_at32 8))
    [{| it_type := 2; it_len := 0 |}] [{| it_type := 1; it_len := 4 |}].
Proof.
  split; [reflexivity|]. split; [reflexivity|].
  split; [split; [reflexivity|exact I]|].
  split; [reflexivity|].
  split; [split; [reflexivity|exact I]|reflexivity].
Defined.

Lemma scan_both_areas_witness :
  let it0 := any8_it trailer_prot8_general 12 in
  scans true it0 [(40, 0, Some 2); (48, 4, Some 1)] (set_tlv_off it0 52).
Proof.
  exact (proj2 (scan_both_areas false fresh_iter (hdr_at32 8)
                  (flash_of_bytes trailer_prot8_general) IMAGE_TLV_ANY true
                  _ _ prot8_general_layout ltac:(discriminate))).
Defined.

Lemma scan_protected_only_witness :
  let it0 := prot8_it trailer_prot8_general 12 in
  scans true it0 [(40, 0, Some 2)] (set_tlv_off it0 44).
Proof.
  exact (proj2 (scan_protected_only false fresh_iter (hdr_at32 8)
                  (flash_of_bytes trailer_prot8_general) IMAGE_TLV_ANY true
                  _ _ prot8_general_layout ltac:(discriminate))).
Defined.

(** ** The membership query on the records of a trailer *)

(** Where the payloads of the records returned lie. *)
Lemma expected_bounds h f filter tp rs : forall o off len ty,
  laid_out h f o rs ->
  In (off, len, ty) (expected filter tp o rs) ->
  o + sizeof_tlv <= off /\ off + len <= o + records_size rs /\ 0 <= len.
Proof.
  induction rs as [|t rest IH]; intros o off len ty Hlay Hin;
    cbn [expected laid_out records_size] in *; [contradiction|].
  destruct Hlay as [Hl Hrest].
  pose proof (load_tlv_range _ _ _ _ Hl) as [_ Hlen].
  pose proof (records_size_nonneg _ _ _ _ Hrest) as Hsz.
  unfold sizeof_tlv, UINT16_MAX in *.
  assert (Htail : In (off, len, ty)
                     (expected filter tp (o + 4 + it_len t) rest) ->
                  o + 4 <= off /\
                  off + len <= o + (4 + it_len t + records_size rest) /\
                  0 <= len).
  { intros Hin'. destruct (IH _ _ _ _ Hrest Hin') as (Ha & Hb & Hc). lia. }
  destruct (tlv_matches filter t); [|exact (Htail Hin)].
  destruct Hin as [E|Hin]; [|exact (Htail Hin)].
  apply triple_inj in E. destruct E as (<- & <- & _). lia.
Qed.

(** X15: on a trailer with both areas, at any point of the scan,
    [bootutil_tlv_iter_is_prot] returns 0 on the payload offset of every
    record of the general area, and 1 on the payload offset of every record
    of the protected area whose payload is not empty. *)
Theorem is_prot_classifies swap it h f ty pr tp ps gs it1 :
  prot_trailer h f (area_start swap it h) ps gs ->
  let off_ := area_start swap it h in
  let protect := sizeof_info + records_size ps in
  let it0 := begun it h f ty pr off_ protect
               (sizeof_info + records_size gs) in
  advances it0 it1 ->
  (forall off len t, 
     In (off, len, t) (expected ty tp (off_ + sizeof_info) ps) ->
     0 < len ->
     fst (fst (bootutil_tlv_iter_is_prot (Some it1) off)) = 1) /\
  (forall off len t,
     In (off, len, t) (expected ty tp (off_ + protect + sizeof_info) gs) ->
     fst (fst (bootutil_tlv_iter_is_prot (Some it1) off)) = 0).
Proof.
  intros Ht off_ protect it0 Hadv.
  destruct Ht as (Hp & Hl & Hlay & Hl2 & Hlay2 & Hw).
  fold off_ in Hl, Hlay, Hl2, Hlay2, Hw.
  apply advances_frame in Hadv.
  assert (Hq : forall off,
            fst (fst (bootutil_tlv_iter_is_prot (Some it1) off))
            = if off <? off_ + protect then 1 else 0).
  { intros off. rewrite Hadv. reflexivity. }
  unfold protect, sizeof_info, sizeof_tlv in *.
  split.
  - intros off len t Hin Hlen. rewrite Hq.
    destruct (expected_bounds _ _ _ _ _ _ _ _ _ Hlay Hin) as (Ha & Hb & _).
    assert (Hlt : (off <? off_ + (4 + records_size ps)) = true)
      by (apply Z.ltb_lt; lia).
    rewrite Hlt. reflexivity.
  - intros off len t Hin. rewrite Hq.
    replace (off_ + (4 + records_size ps) + 4)
      with (off_ + 4 + records_size ps + 4) in Hin by lia.
    destruct (expected_bounds _ _ _ _ _ _ _ _ _ Hlay2 Hin) as (Ha & _).
    assert (Hge : (off <? off_ + (4 + records_size ps)) = false)
      by (apply Z.ltb_ge; unfold sizeof_tlv in Ha; lia).
    rewrite Hge. reflexivity.
Qed.

Lemma is_prot_classifies_witness :
  let it0 := any8_it trailer_prot8_general 12 in
  fst (fst (bootutil_tlv_iter_is_prot (Some (set_tlv_off it0 52)) 48)) = 0.
Proof.
  intros it0.
  assert (Hadv : advances it0 (set_tlv_off it0 52)).
  { apply (advances_next it0 1 true (Found 40 0 (Some 2))
             (set_tlv_off it0 40) [36]); [reflexivity|].
    apply (advances_next _ 1 true (Found 48 4 (Some 1))
             (set_tlv_off it0 52) [44]); [reflexivity|apply advances_refl]. }
  exact (proj2 (is_prot_classifies false fresh_iter (hdr_at32 8)
                  (flash_of_bytes trailer_prot8_general) IMAGE_TLV_ANY false
                  true _ _ _ prot8_general_layout Hadv)
           48 4 (Some 1) (or_introl eq_refl)).
Defined.
